(** * html_to_json: the extraction-and-classification engine

    A shallow embedding of [src/html_to_json.py] and a verification of its
    needle-size normalizer, taxonomy classifier, link extractor, field
    extractor and text normalizer.

    Conventions of the embedding.
    - A Python [str] is a [string]; a character is a code point below 256
      (Rocq's [ascii]), which is closed under [str.lower].
    - A Python [float] is an IEEE binary64 number, [spec_float] with
      precision 53 and maximal exponent 1024, computed with the integer
      definitions of [SpecFloat].
    - A [dict] with string keys is a [gmap string _]; a [set] is a [gset].
    - A call that can raise returns a [result]. *)

From Stdlib Require Import ZArith NArith Ascii SpecFloat.
From stdpp Require Import gmap strings list sorting pretty.

(** ** Results of calls that may raise *)

(** An instance of Python's [Exception]: its class name and its message,
    the text [str(e)] prints. *)
Inductive exn : Type :=
| Exn (cls : string) (msg : string).

Definition exn_msg (e : exn) : string :=
  match e with Exn _ msg => msg end.

Inductive result (A : Type) : Type :=
| Ok (a : A)
| Raise (e : exn).
Arguments Ok {A} a.
Arguments Raise {A} e.

#[global] Instance result_ret : MRet result := @Ok.
#[global] Instance result_bind : MBind result := λ A B f m,
  match m with
  | Ok a => f a
  | Raise e => Raise e
  end.

(** ** Texts *)

Module Text.

Definition code (c : ascii) : N := N_of_ascii c.

Definition in_range (lo hi : N) (c : ascii) : bool :=
  (lo <=? code c)%N && (code c <=? hi)%N.

(** [\d] on code points below 256: the decimal digits. *)
Definition is_digit (c : ascii) : bool := in_range 48 57 c.

(** [\s], and [str.isspace]: tab to carriage return, the four separators
    28 to 31, the space, NEL (133) and the no-break space (160). *)
Definition is_space (c : ascii) : bool :=
  in_range 9 13 c || in_range 28 32 c || (code c =? 133)%N || (code c =? 160)%N.

(** [[\d\.]] *)
Definition is_digit_or_dot (c : ascii) : bool :=
  is_digit c || (code c =? 46)%N.

(** Upper-case letters below 256: A to Z, and the Latin-1 letters 192 to
    222 without the multiplication sign 215. *)
Definition is_upper (c : ascii) : bool :=
  in_range 65 90 c || (in_range 192 222 c && negb (code c =? 215)%N).

Definition lower_char (c : ascii) : ascii :=
  if is_upper c then ascii_of_N (code c + 32) else c.

Fixpoint map_chars (f : ascii → ascii) (s : string) : string :=
  match s with
  | EmptyString => EmptyString
  | String c s' => String (f c) (map_chars f s')
  end.

(** [s.lower()] *)
Definition lower (s : string) : string := map_chars lower_char s.

Fixpoint all_chars (p : ascii → bool) (s : string) : bool :=
  match s with
  | EmptyString => true
  | String c s' => p c && all_chars p s'
  end.

(** [s.startswith(p)] *)
Fixpoint startswith (p s : string) : bool :=
  match p, s with
  | EmptyString, _ => true
  | String a p', String b s' => if decide (a = b) then startswith p' s' else false
  | String _ _, EmptyString => false
  end.

(** [sub in s] *)
Fixpoint contains (sub s : string) : bool :=
  startswith sub s ||
  match s with
  | EmptyString => false
  | String _ s' => contains sub s'
  end.

(** [sep.join(l)] *)
Fixpoint join (sep : string) (l : list string) : string :=
  match l with
  | [] => ""
  | [x] => x
  | x :: l' => x +:+ sep +:+ join sep l'
  end.

(** [re.sub(r"\s+", " ", s)]: every maximal run of white space becomes
    one space; [in_run] tells that the previous character was white. *)
Fixpoint sub_ws (in_run : bool) (s : string) : string :=
  match s with
  | EmptyString => EmptyString
  | String c s' =>
      if is_space c
      then (if in_run then sub_ws true s' else String " " (sub_ws true s'))
      else String c (sub_ws false s')
  end.

Fixpoint lstrip (s : string) : string :=
  match s with
  | EmptyString => EmptyString
  | String c s' => if is_space c then lstrip s' else s
  end.

Fixpoint rstrip (s : string) : string :=
  match s with
  | EmptyString => EmptyString
  | String c s' =>
      match rstrip s' with
      | EmptyString => if is_space c then EmptyString else String c EmptyString
      | r => String c r
      end
  end.

(** [s.strip()] *)
Definition strip (s : string) : string := rstrip (lstrip s).

(** [s[:n]] and [s[n:]] *)
Fixpoint take (n : nat) (s : string) : string :=
  match n, s with
  | S n', String c s' => String c (take n' s')
  | _, _ => EmptyString
  end.

Fixpoint drop (n : nat) (s : string) : string :=
  match n, s with
  | S n', String _ s' => drop n' s'
  | _, _ => s
  end.

(** [c * n] for a character [c] *)
Fixpoint repeat_char (c : ascii) (n : nat) : string :=
  match n with
  | O => EmptyString
  | S n' => String c (repeat_char c n')
  end.

Definition of_list (l : list ascii) : string := String.string_of_list_ascii l.
Definition to_list (s : string) : list ascii := String.list_ascii_of_string s.

End Text.

(** [clean(text)]: [None] is read as the empty text. *)
Definition clean (text : option string) : string :=
  Text.strip (Text.sub_ws false (default "" text)).

(** ** Floats

    [float(s)], the arithmetic the normalizer uses, and [repr], which an
    f-string applies to a float. *)

Module PyFloat.

Local Open Scope Z_scope.

Definition prec : Z := 53.
Definition emax : Z := 1024.

Definition sub : spec_float → spec_float → spec_float := SFsub prec emax.
Definition abs : spec_float → spec_float := SFabs.
Definition ltb : spec_float → spec_float → bool := SFltb.
Definition eqb : spec_float → spec_float → bool := SFeqb.

(** The binary64 number nearest to [n / d], ties to even, and infinity on
    overflow: the rounded quotient that [SFdiv] computes from the two
    integers. *)
Definition of_ratio (n d : positive) : spec_float :=
  SFdiv prec emax (S754_finite false n 0) (S754_finite false d 0).

Definition pow10 (k : Z) : Z := 10 ^ k.

(** The binary64 number nearest to [c * 10^j]: what the correctly rounded
    [float] gives for the decimal literal. *)
Definition of_decimal (c : Z) (j : Z) : spec_float :=
  match c with
  | Zpos p =>
      if 0 <=? j then of_ratio (Z.to_pos (c * pow10 j)) 1
      else of_ratio p (Z.to_pos (pow10 (- j)))
  | _ => S754_zero false
  end.

(** The value of a run of decimal digits. *)
Fixpoint digits_value (acc : Z) (s : string) : Z :=
  match s with
  | EmptyString => acc
  | String c s' => digits_value (10 * acc + (Z.of_N (Text.code c) - 48)) s'
  end.

(** The text before the first point, and the text after it when there is
    a point. *)
Fixpoint split_point (s : string) : string * option string :=
  match s with
  | EmptyString => (EmptyString, None)
  | String c s' =>
      if decide (c = "."%char) then (EmptyString, Some s')
      else let '(a, b) := split_point s' in (String c a, b)
  end.

(** A non-empty run of decimal digits. *)
Definition is_digits (s : string) : bool :=
  match s with
  | EmptyString => false
  | _ => Text.all_chars Text.is_digit s
  end.

Definition not_a_literal (s : string) : exn :=
  Exn "ValueError" ("could not convert string to float: " +:+ s).

(** [float(s)] on the literals [digits] and [digits.digits]. The other
    forms that Python reads (a sign, an exponent, underscores, white
    space around, a point at either end, inf and nan) are not modelled:
    on every other text this [float] reports [ValueError]. *)
Definition float (s : string) : result spec_float :=
  match split_point s with
  | (ip, None) =>
      if is_digits ip then Ok (of_decimal (digits_value 0 ip) 0)
      else Raise (not_a_literal s)
  | (ip, Some fp) =>
      if is_digits ip && is_digits fp
      then Ok (of_decimal (digits_value 0 (ip +:+ fp)) (- Z.of_nat (String.length fp)))
      else Raise (not_a_literal s)
  end.

(** A float literal of the source, such as the values of [US_NEEDLES]. *)
Definition literal (s : string) : spec_float :=
  match float s with
  | Ok x => x
  | Raise _ => S754_nan
  end.

(** [bool(x)] *)
Definition truthy (x : spec_float) : bool :=
  match x with
  | S754_zero _ => false
  | _ => true
  end.

(** *** [repr] *)

(** [x < 10^k] for [x = num / den]. *)
Definition below_pow10 (num den : Z) (k : Z) : bool :=
  if 0 <=? k then num <? den * pow10 k else num * pow10 (- k) <? den.

(** The decimal exponent of [x]: the [k] with [10^(k-1) <= x < 10^k],
    searched downwards and then upwards from an estimate. *)
Fixpoint search_down (fuel : nat) (num den : Z) (k : Z) : Z :=
  match fuel with
  | O => k
  | S fuel' =>
      if below_pow10 num den (k - 1) then search_down fuel' num den (k - 1) else k
  end.

Fixpoint search_up (fuel : nat) (num den : Z) (k : Z) : Z :=
  match fuel with
  | O => k
  | S fuel' =>
      if below_pow10 num den k then k else search_up fuel' num den (k + 1)
  end.

Definition decimal_point (num den : Z) : Z :=
  let k0 := (Z.log2 num - Z.log2 den) * 3 / 10 in
  search_up 800 num den (search_down 800 num den k0).

(** [floor (x / 10^j)] for [x = num / den]. *)
Definition scaled_floor (num den : Z) (j : Z) : Z :=
  if 0 <=? j then num / (den * pow10 j) else (num * pow10 (- j)) / den.

(** Compares [2 * x] with [c * 10^j], for [x = num / den]. *)
Definition compare_twice (num den : Z) (c j : Z) : comparison :=
  if 0 <=? j then (2 * num ?= c * pow10 j * den)
  else (2 * num * pow10 (- j) ?= c * den).

(** The shortest digits that read back as [x]: for [n] = 1, 2, ... the two
    [n]-digit decimals around [x] are converted back; the first [n] at
    which one of them gives [x] wins, the nearer to [x] when both do, the
    even one on a tie. The result is the integer [c] and the exponent [j]
    of the decimal [c * 10^j]. *)
Fixpoint shortest (fuel : nat) (x : spec_float) (num den : Z) (k : Z) (n : Z) : Z * Z :=
  let j := k - n in
  let lo := scaled_floor num den j in
  let hi := lo + 1 in
  match fuel with
  | O => (lo, j)
  | S fuel' =>
      let rlo := eqb (of_decimal lo j) x in
      let rhi := eqb (of_decimal hi j) x in
      if rlo && rhi then
        match compare_twice num den (lo + hi) j with
        | Lt => (lo, j)
        | Gt => (hi, j)
        | Eq => if Z.even lo then (lo, j) else (hi, j)
        end
      else if rlo then (lo, j)
      else if rhi then (hi, j)
      else shortest fuel' x num den k (n + 1)
  end.

Fixpoint strip_zeros (l : list ascii) : list ascii :=
  match l with
  | "0"%char :: l' => strip_zeros l'
  | _ => l
  end.

(** The digits [ds], with the decimal point [decpt] places from their
    left, as [repr] lays them out: with an exponent when [decpt] is below
    -3 or above 16, otherwise in positional notation with at least one
    digit after the point. *)
Definition layout (ds : string) (decpt : Z) : string :=
  let nd := Z.of_nat (String.length ds) in
  if (decpt <=? -4) || (16 <? decpt) then
    let e := decpt - 1 in
    let mant := match ds with
                | String d (String d' rest) => String d (String "." (String d' rest))
                | _ => ds
                end in
    mant +:+ "e" +:+ (if e <? 0 then "-" else "+")
         +:+ (if Z.abs e <? 10 then "0" else "") +:+ pretty (Z.abs_N e)
  else if decpt <=? 0 then
    "0." +:+ Text.repeat_char "0" (Z.to_nat (- decpt)) +:+ ds
  else if decpt <? nd then
    Text.take (Z.to_nat decpt) ds +:+ "." +:+ Text.drop (Z.to_nat decpt) ds
  else ds +:+ Text.repeat_char "0" (Z.to_nat (decpt - nd)) +:+ ".0".

Definition repr_finite (m : positive) (e : Z) : string :=
  let x := S754_finite false m e in
  let num := if 0 <=? e then Zpos m * 2 ^ e else Zpos m in
  let den := if 0 <=? e then 1 else 2 ^ (- e) in
  let k := decimal_point num den in
  let '(c, j) := shortest 17 x num den k 1 in
  let all := pretty (Z.to_N c) in
  let ds := Text.of_list (rev (strip_zeros (rev (Text.to_list all)))) in
  layout ds (j + Z.of_nat (String.length all)).

(** [repr(x)], which is also [str(x)] and what [f"{x}"] prints. *)
Definition repr (x : spec_float) : string :=
  match x with
  | S754_zero s => if s then "-0.0" else "0.0"
  | S754_infinity s => if s then "-inf" else "inf"
  | S754_nan => "nan"
  | S754_finite s m e => (if s then "-" else "") +:+ repr_finite m e
  end.

End PyFloat.

(** ** Regular expressions

    The backtracking matcher of [re], for the constructs the patterns of the
    program use: literals, one-character classes, sequence, the greedy
    optional [r?], the greedy repetitions [c*] and [c+] of a class, and
    numbered capturing groups. *)

Module Re.

Inductive regex : Type :=
| Lit (c : ascii)
| Class (p : ascii → bool)
| Seq (r1 r2 : regex)
| Opt (r : regex)
| Star (p : ascii → bool)
| Plus (p : ascii → bool)
| Group (i : nat) (r : regex).

(** The text of each group that took part in the match. *)
Abbreviation captures := (gmap nat string).

(** What was consumed between the input [s] and its suffix [s']. *)
Definition taken (s s' : string) : string :=
  Text.take (String.length s - String.length s') s.

Section Matcher.
Context {A : Type}.

(** [c*]: as many characters of the class as possible, one fewer each
    time the rest of the pattern, [k], fails. *)
Fixpoint star (p : ascii → bool) (s : string) (k : string → option A) : option A :=
  match s with
  | String c s' =>
      if p c then
        match star p s' k with
        | Some x => Some x
        | None => k s
        end
      else k s
  | EmptyString => k s
  end.

(** [bt r s caps k]: match [r] at the start of [s], then the rest of the
    pattern, [k], on what is left; the first success in backtracking
    order. *)
Fixpoint bt (r : regex) (s : string) (caps : captures)
    (k : string → captures → option A) : option A :=
  match r with
  | Lit c =>
      match s with
      | String c' s' => if decide (c = c') then k s' caps else None
      | EmptyString => None
      end
  | Class p =>
      match s with
      | String c' s' => if p c' then k s' caps else None
      | EmptyString => None
      end
  | Seq r1 r2 => bt r1 s caps (fun s1 caps1 => bt r2 s1 caps1 k)
  | Opt r1 =>
      match bt r1 s caps k with
      | Some x => Some x
      | None => k s caps
      end
  | Star p => star p s (fun s' => k s' caps)
  | Plus p =>
      match s with
      | String c' s' => if p c' then star p s' (fun s'' => k s'' caps) else None
      | EmptyString => None
      end
  | Group i r1 => bt r1 s caps (fun s' caps' => k s' (<[i := taken s s']> caps'))
  end.
End Matcher.

(** [pattern.match(s)]: the groups and the rest of the input. *)
Definition match_here (r : regex) (s : string) : option (captures * string) :=
  bt r s ∅ (fun s' caps => Some (caps, s')).

(** The scan of [re.findall]: a match is tried at each position from the
    left, and after a match the scan goes on where the match ended;
    [skip] counts the characters of the last match still to pass. (None
    of the program's patterns matches the empty text.) *)
Fixpoint scan (r : regex) (skip : nat) (s : string) : list captures :=
  match skip with
  | S n =>
      match s with
      | String _ s' => scan r n s'
      | EmptyString => []
      end
  | O =>
      match match_here r s with
      | Some (caps, rest) =>
          caps :: match s with
                  | String _ s' =>
                      scan r (String.length s - String.length rest - 1) s'
                  | EmptyString => []
                  end
      | None =>
          match s with
          | String _ s' => scan r 0 s'
          | EmptyString => []
          end
      end
  end.

Definition findall (r : regex) (s : string) : list captures := scan r 0 s.

(** [m.group(i)] as [findall] reports it: empty for a group that did not
    take part. *)
Definition group (i : nat) (caps : captures) : string := default "" (caps !! i).

End Re.

(** ** The needle-size normalizer *)

(** [US_NEEDLES], in the order of the source. *)
Definition US_NEEDLES : list (string * spec_float) :=
  map (fun kv => (kv.1, PyFloat.literal kv.2))
    [("0", "2.0"); ("1", "2.25"); ("2", "2.75"); ("3", "3.25"); ("4", "3.5");
     ("5", "3.75"); ("6", "4.0"); ("7", "4.5"); ("8", "5.0"); ("9", "5.5");
     ("10", "6.0"); ("10.5", "6.5"); ("11", "8.0"); ("13", "9.0"); ("15", "10.0")].

(** [US_NEEDLES.get(k)] *)
Fixpoint needles_get (k : string) (table : list (string * spec_float)) : option spec_float :=
  match table with
  | [] => None
  | (k', v) :: table' => if decide (k = k') then Some v else needles_get k table'
  end.

(** [(\d+(\.\d+)?)\s*mm] *)
Definition MM_RE : Re.regex :=
  Re.Seq (Re.Group 1 (Re.Seq (Re.Plus Text.is_digit)
                        (Re.Opt (Re.Group 2 (Re.Seq (Re.Lit ".") (Re.Plus Text.is_digit))))))
    (Re.Seq (Re.Star Text.is_space) (Re.Seq (Re.Lit "m") (Re.Lit "m"))).

(** [us\s*([\d\.]+)] *)
Definition US_RE : Re.regex :=
  Re.Seq (Re.Lit "u") (Re.Seq (Re.Lit "s")
    (Re.Seq (Re.Star Text.is_space) (Re.Group 1 (Re.Plus Text.is_digit_or_dot)))).

(** The literal 0.15 of the tolerance test. *)
Definition tolerance : spec_float := PyFloat.literal "0.15".

(** [bool(s)] for an optional text: [None] and the empty text are false. *)
Definition str_truthy (s : option string) : bool :=
  match s with
  | Some (String _ _) => true
  | _ => false
  end.

(** [abs(v - mm)] *)
Definition distance (v mm : spec_float) : spec_float :=
  PyFloat.abs (PyFloat.sub v mm).

(** [abs(v - mm) < 0.15] *)
Definition within_tolerance (v mm : spec_float) : bool :=
  PyFloat.ltb (distance v mm) tolerance.

(** The inner loop over the entries of a table: [us] is overwritten at
    every entry within the tolerance. *)
Definition lookup_us_in (table : list (string * spec_float)) (mm : spec_float)
    : option string :=
  foldl (fun us kv => if within_tolerance kv.2 mm then Some kv.1 else us) None table.

Definition lookup_us (mm : spec_float) : option string :=
  lookup_us_in US_NEEDLES mm.

(** The fragment appended for one metric value. *)
Definition mm_fragment (mm : spec_float) : string :=
  let us := lookup_us mm in
  if str_truthy us
  then "US " +:+ default "" us +:+ " (" +:+ PyFloat.repr mm +:+ " mm)"
  else PyFloat.repr mm +:+ " mm".

(** The fragment appended for one US value. *)
Definition us_fragment (us : string) : string :=
  match needles_get us US_NEEDLES with
  | Some mm =>
      if PyFloat.truthy mm
      then "US " +:+ us +:+ " (" +:+ PyFloat.repr mm +:+ " mm)"
      else "US " +:+ us
  | None => "US " +:+ us
  end.

Definition normalize_needle (val : string) : result string :=
  if decide (val = "") then Ok ""
  else
    let val := Text.lower val in
    let mm_match := Re.findall MM_RE val in
    let us_match := Re.findall US_RE val in
    mm_vals ← mapM (fun m => PyFloat.float (Re.group 1 m)) mm_match;
    let us_vals := Re.group 1 <$> us_match in
    let results := (mm_fragment <$> mm_vals) ++ (us_fragment <$> us_vals) in
    Ok (match results with
        | [] => val
        | _ => Text.join ", " results
        end).

(** ** The taxonomy classifier *)

Definition TECHNIQUES : list string :=
  ["short rows"; "increases"; "decreases";
   "worked flat"; "worked in the round"; "top-down"; "bottom-up";
   "modular"; "seamed"; "pick up stitches"; "grafting"].

(** [SHAPE_RULES], in the order of the source, which is the order in which
    [items()] yields the pairs. *)
Definition SHAPE_RULES : list (string * list string) :=
  [("sphere", ["ball"; "round"; "sphere"; "egg"]);
   ("cube", ["cube"; "box"; "square plush"; "block"]);
   ("cone", ["cone"; "tree"; "hat cone"]);
   ("pyramid", ["pyramid"; "tetra"]);
   ("cylinder", ["tube"; "sock"; "sleeve"; "leg warmer"]);
   ("softie", ["toy"; "amigurumi"; "softie"; "plush"])].

(** [any(k in text for k in keys)] *)
Definition any_in (keys : list string) (text : string) : bool :=
  existsb (fun k => Text.contains k text) keys.

(** The loop of [detect_shape] over the rules. *)
Fixpoint first_shape (rules : list (string * list string)) (text : string) : string :=
  match rules with
  | [] => "unknown"
  | (shape, keys) :: rules' =>
      if any_in keys text then shape else first_shape rules' text
  end.

Definition detect_shape (text : string) : string :=
  let text := Text.lower text in
  first_shape SHAPE_RULES text.

(** [sorted(l)] on texts: the order of [str] is the lexicographic order of
    the code points. *)
Definition sorted (l : list string) : list string :=
  merge_sort (≤)%string l.

(** [{t for t in TECHNIQUES if t in text}] *)
Definition technique_set (text : string) : gset string :=
  list_to_set (filter (fun t => Text.contains t text = true) TECHNIQUES).

(** [sorted({t for t in TECHNIQUES if t in text})]. A set is iterated in an
    order of its own; [elements] stands for that order. *)
Definition techniques (text : string) : list string :=
  sorted (elements (technique_set text)).

(** ** The link extractor *)

(** [any(x in href.lower() for x in [".pdf", "download", "pattern"])] *)
Definition link_keyword (href : string) : bool :=
  any_in [".pdf"; "download"; "pattern"] (Text.lower href).

(** ["ravelry" in href or href.startswith("http")] *)
Definition link_origin (href : string) : bool :=
  Text.contains "ravelry" href || Text.startswith "http" href.

(** The loop of [extract_download_links]: [anchors] lists the [href]
    attribute of every [a] element of the page, in document order, [None]
    for an element without the attribute. *)
Definition candidate_urls (anchors : list (option string)) : list string :=
  filter (fun href => link_keyword href && link_origin href = true)
         (omap id anchors).

(** [list(set(urls))] *)
Definition extract_download_links (anchors : list (option string)) : list string :=
  elements (list_to_set (candidate_urls anchors) : gset string).

(** ** The text normalizer *)

(** [translate_to_english(text)]. [translate] is the external call
    [GoogleTranslator(source='auto', target='en').translate], which returns
    a text or raises; the first component of the result lists the lines
    printed. *)
Definition translate_to_english (translate : string → result string) (text : string)
    : list string * result string :=
  match translate text with
  | Ok translated => ([], Ok translated)
  | Raise e => (["[warn] Translation skipped (" +:+ exn_msg e +:+ ")"], Ok text)
  end.

(** ** The field extractor and the record *)

(** A value of the record: a text or a list of texts. *)
Inductive jvalue : Type :=
| JStr (s : string)
| JList (l : list string).

(** The [div] of class [value] of a field block: its text, and the texts of
    the [span] elements inside it. *)
Record value_div : Type := {
  value_text : string;
  value_spans : list string;
}.

(** A field block: the text of its label element and its value element,
    each [None] when [find] does not find the element. *)
Record field : Type := {
  field_label : option string;
  field_value : option value_div;
}.

(** What [parse_html] reads from the parsed page. [page_link] is the entry
    that lines 96 to 99 store under [pattern_page], and [ld_entries] the
    entries that the JSON-LD block of lines 102 to 110 stores under [name],
    [description] and [designer]; both are taken as given. *)
Record page : Type := {
  page_link : option string;
  ld_entries : list (string * string);
  fields : list field;
  tags : list string;
  notes : option string;
  anchors : list (option string);
  title : option string;
}.

Abbreviation record := (gmap string jvalue).

(** [result[key] = v if cond] *)
Definition set_if (cond : bool) (key : string) (v : jvalue) (result : record) : record :=
  if cond then <[key := v]> result else result.

(** One pass of the loop over the field blocks: [result] and [yarns] are
    the state. *)
Definition field_step (st : record * list string) (f : field)
    : result (record * list string) :=
  let '(result, yarns) := st in
  match field_label f, field_value f with
  | Some lab, Some val =>
      let key := Text.lower (clean (Some lab)) in
      let v := clean (Some (value_text val)) in
      let result := set_if (Text.contains "craft" key) "craft" (JStr v) result in
      let result := set_if (Text.contains "category" key) "category" (JStr v) result in
      result ← (if Text.contains "needle" key
                then n ← normalize_needle v; Ok (<["needle_size" := JStr n]> result)
                else Ok result);
      let yarns := if Text.contains "yarn" key then yarns ++ [v] else yarns in
      let result := set_if (Text.contains "sizes available" key) "sizes_available" (JStr v) result in
      let result := set_if (Text.contains "languages" key) "languages"
                      (JList ((fun lang => clean (Some lang)) <$> value_spans val)) result in
      Ok (result, yarns)
  | _, _ => Ok st
  end.

Fixpoint field_loop (st : record * list string) (fs : list field)
    : result (record * list string) :=
  match fs with
  | [] => Ok st
  | f :: fs' => st' ← field_step st f; field_loop st' fs'
  end.

(** [result.get(key, "")] for an entry that holds a text. *)
Definition get_text (key : string) (result : record) : string :=
  match result !! key with
  | Some (JStr s) => s
  | _ => ""
  end.

(** [if yarns: result["suggested_yarn"] = list(set(yarns))] *)
Definition store_yarns (yarns : list string) (result : record) : record :=
  match yarns with
  | [] => result
  | _ => <["suggested_yarn" := JList (elements (list_to_set yarns : gset string))]> result
  end.

(** Lines 153 to 160 of [parse_html]: the shape and the techniques of the
    combined text, the links, and the title as the name of last resort. *)
Definition classify (soup : page) (result : record) : record :=
  let text := Text.lower (get_text "description" result +:+ " " +:+ get_text "full_text" result) in
  let result := <["techniques" := JList (techniques text)]> result in
  let result := <["shape" := JStr (detect_shape text)]> result in
  let result := <["download_links" := JList (extract_download_links (anchors soup))]> result in
  match result !! "name", title soup with
  | None, Some t => <["name" := JStr (clean (Some t))]> result
  | _, _ => result
  end.

(** [parse_html], from the parsed page on: the lines printed and the
    record. *)
Definition parse_html (translate : string → result string) (soup : page)
    : list string * result record :=
  let result : record := ∅ in
  let result := match page_link soup with
                | Some url => <["pattern_page" := JStr url]> result
                | None => result
                end in
  let result := foldl (fun r kv => <[kv.1 := JStr kv.2]> r) result (ld_entries soup) in
  match field_loop (result, []) (fields soup) with
  | Raise e => ([], Raise e)
  | Ok (result, yarns) =>
      let result := store_yarns yarns result in
      let attrs := (fun tag => clean (Some tag)) <$> tags soup in
      let result := match attrs with
                    | [] => result
                    | _ => <["attributes" := JList attrs]> result
                    end in
      match notes soup with
      | Some block =>
          let raw_text := clean (Some block) in
          match translate_to_english translate raw_text with
          | (printed, Ok translated_text) =>
              (printed, Ok (classify soup (<["full_text" := JStr translated_text]> result)))
          | (printed, Raise e) => (printed, Raise e)
          end
      | None => ([], Ok (classify soup result))
      end
  end.

(** ** The JSON-LD block *)

(** A value decoded by [json.loads]. An object lists the items of the
    decoded dict, each key once. *)
#[warnings="-register-all"]
Inductive json : Type :=
| JNull
| JBool (b : bool)
| JInt (z : Z)
| JFloat (x : spec_float)
| JString (s : string)
| JArray (l : list json)
| JObject (items : list (string * json)).

(** [bool(x)] *)
Definition json_truthy (x : json) : bool :=
  match x with
  | JNull => false
  | JBool b => b
  | JInt z => negb (z =? 0)%Z
  | JFloat x => PyFloat.truthy x
  | JString s => negb (bool_decide (s = ""))
  | JArray l => negb (bool_decide (l = []))
  | JObject items => negb (bool_decide (items = []))
  end.

Fixpoint items_get (key : string) (items : list (string * json)) : option json :=
  match items with
  | [] => None
  | (k, v) :: items' => if decide (key = k) then Some v else items_get key items'
  end.

(** [x.get(key, default)]: only a dict has the method. *)
Definition json_get (x : json) (key : string) (default : json) : result json :=
  match x with
  | JObject items => Ok (from_option id default (items_get key items))
  | _ => Raise (Exn "AttributeError" "object has no attribute 'get'")
  end.

(** [clean(x)] on a decoded value: a false value is read as the empty
    text, and [re.sub] rejects a true value that is no text. *)
Definition clean_json (x : json) : result string :=
  match x with
  | JString s => Ok (clean (Some s))
  | _ =>
      if json_truthy x
      then Raise (Exn "TypeError" "expected string or bytes-like object")
      else Ok (clean None)
  end.

(** Lines 102 to 110 of [parse_html]: the entries stored under name,
    description and designer, in the order of the assignments. [script] is
    [None] when the page has no JSON-LD element and otherwise the outcome
    of [json.loads(script.string)]; whatever is raised inside the [try]
    ends the block and keeps the entries stored before. *)
Definition ld_entries_of (script : option (result json)) : list (string * string) :=
  match script with
  | None => []
  | Some (Raise _) => []
  | Some (Ok j) =>
      match (x ← json_get j "name" JNull; clean_json x) with
      | Raise _ => []
      | Ok name =>
          match (x ← json_get j "description" JNull; clean_json x) with
          | Raise _ => [("name", name)]
          | Ok description =>
              match (brand ← json_get j "brand" (JObject []);
                     x ← json_get brand "name" (JString "");
                     clean_json x) with
              | Raise _ => [("name", name); ("description", description)]
              | Ok designer =>
                  [("name", name); ("description", description); ("designer", designer)]
              end
          end
      end
  end.

(** ** The batch *)

(** [s.endswith(suffix)] *)
Definition endswith (suffix s : string) : bool :=
  (String.length suffix <=? String.length s) &&
  bool_decide (Text.drop (String.length s - String.length suffix) s = suffix).

(** [s.replace(old, new)] for a non-empty [old], as in the program: the
    occurrences of [old] are replaced from the left, and the search goes
    on after each occurrence; [skip] counts the characters of the last
    occurrence still to pass. *)
Fixpoint replace_from (old new : string) (skip : nat) (s : string) : string :=
  match s with
  | EmptyString => EmptyString
  | String c s' =>
      match skip with
      | S n => replace_from old new n s'
      | O =>
          if Text.startswith old s
          then new +:+ replace_from old new (String.length old - 1) s'
          else String c (replace_from old new 0 s')
      end
  end.

Definition replace (old new s : string) : string := replace_from old new 0 s.

(** [os.path.join(a, b)] of [posixpath]. *)
Definition path_join (a b : string) : string :=
  if Text.startswith "/" b then b
  else if bool_decide (a = "") || endswith "/" a then a +:+ b
  else a +:+ "/" +:+ b.

Definition HTML_DIR : string := "downloaded_patterns".
Definition OUT_DIR : string := "json_patterns_full".
Definition MASTER_JSON : string := "patterns_dataset.json".

(** What a path holds: a directory, the record of one page or the list of
    all records; [json.dump] writes the value, whose layout as text is not
    modelled. *)
Inductive content : Type :=
| Directory
| RecordFile (data : record)
| DatasetFile (all_patterns : list record).

(** A line printed: one of the progress lines of [main], by its
    arguments, or a line printed inside [parse_html]. *)
Inductive output : Type :=
| Found (n : nat)
| Parsed (i n : nat) (file : string)
| Merged (master : string)
| Line (s : string).

(** [ensure_dir(p)] on the files that exist. *)
Definition ensure_dir (p : string) (files : gmap string content) : gmap string content :=
  match files !! p with
  | Some _ => files
  | None => <[p := Directory]> files
  end.

(** The state of [main]: the files, the lines printed and [all_patterns]. *)
Abbreviation batch := (gmap string content * list output * list record)%type.

(** The loop of [main] from [file] number [i] on. [read path] is the page
    that [open] and [BeautifulSoup] give for the path, or what they raise;
    writing a file is taken to succeed. *)
Fixpoint main_loop (translate : string → result string) (read : string → result page)
    (total i : nat) (html_files : list string) (st : batch) : batch * result unit :=
  match html_files with
  | [] => (st, Ok ())
  | file :: html_files' =>
      let '(files, printed, all_patterns) := st in
      let path := path_join HTML_DIR file in
      match read path with
      | Raise e => (st, Raise e)
      | Ok soup =>
          match parse_html translate soup with
          | (lines, Raise e) => ((files, printed ++ (Line <$> lines), all_patterns), Raise e)
          | (lines, Ok data) =>
              let out_path := path_join OUT_DIR (replace ".html" ".json" file) in
              main_loop translate read total (S i) html_files'
                (<[out_path := RecordFile data]> files,
                 printed ++ (Line <$> lines) ++ [Parsed i total file],
                 all_patterns ++ [data])
          end
      end
  end.

(** [main()]: [listing] is what [os.listdir(HTML_DIR)] returns or raises,
    and [files] the files that exist at the start. *)
Definition main (translate : string → result string) (listing : result (list string))
    (read : string → result page) (files : gmap string content) : batch * result unit :=
  let files := ensure_dir OUT_DIR files in
  match listing with
  | Raise e => ((files, [], []), Raise e)
  | Ok names =>
      let html_files := sorted (filter (fun f => endswith ".html" f = true) names) in
      match main_loop translate read (length html_files) 1 html_files
              (files, [Found (length html_files)], []) with
      | (st, Raise e) => (st, Raise e)
      | ((files, printed, all_patterns), Ok _) =>
          ((<[MASTER_JSON := DatasetFile all_patterns]> files,
            printed ++ [Merged MASTER_JSON], all_patterns), Ok ())
      end
  end.

(** * Vocabulary of the statements *)

(** [k] occurs in [t]. *)
Definition occurs_in (k t : string) : Prop := ∃ a b, t = a +:+ k +:+ b.

(** The texts a pattern matches. *)
Fixpoint lang (r : Re.regex) (w : string) : Prop :=
  match r with
  | Re.Lit c => w = String c ""
  | Re.Class p => ∃ c, p c = true ∧ w = String c ""
  | Re.Seq r1 r2 => ∃ w1 w2, w = w1 +:+ w2 ∧ lang r1 w1 ∧ lang r2 w2
  | Re.Opt r1 => w = "" ∨ lang r1 w
  | Re.Star p => Text.all_chars p w = true
  | Re.Plus p => w ≠ "" ∧ Text.all_chars p w = true
  | Re.Group _ r1 => lang r1 w
  end.

(** The numbers of the groups of a pattern. *)
Fixpoint groups (r : Re.regex) : list nat :=
  match r with
  | Re.Seq r1 r2 => groups r1 ++ groups r2
  | Re.Opt r1 => groups r1
  | Re.Group i r1 => i :: groups r1
  | _ => []
  end.

(** The sub-pattern of group 1 of [MM_RE]. *)
Definition MM_GROUP : Re.regex :=
  Re.Seq (Re.Plus Text.is_digit)
    (Re.Opt (Re.Group 2 (Re.Seq (Re.Lit ".") (Re.Plus Text.is_digit)))).

(** The lookup as the specification words it: the entry closest to [mm]
    by absolute difference (the first one among equally close entries),
    accepted only when that difference is strictly below 0.15. *)
Definition closest_entry (table : list (string * spec_float)) (mm : spec_float)
    : option (string * spec_float) :=
  foldl (fun best kv =>
           match best with
           | None => Some kv
           | Some b =>
               if PyFloat.ltb (distance kv.2 mm) (distance b.2 mm) then Some kv else best
           end)
        None table.

Definition spec_lookup_us (mm : spec_float) : option string :=
  match closest_entry US_NEEDLES mm with
  | Some (k, v) => if within_tolerance v mm then Some k else None
  | None => None
  end.

(** A text without digits and points. *)
Definition plain (w : string) : Prop :=
  Text.all_chars (fun c => negb (Text.is_digit_or_dot c)) w = true.

(** The lower-cased label and the value element of a block that has both. *)
Definition block_entry (f : field) : option (string * value_div) :=
  match field_label f, field_value f with
  | Some lab, Some val => Some (Text.lower (clean (Some lab)), val)
  | _, _ => None
  end.

(** The value elements of the blocks whose label contains [rule], in page
    order. *)
Definition matching (rule : string) (fs : list field) : list value_div :=
  (filter (fun e => Text.contains rule e.1 = true) (omap block_entry fs)).*2.

(** [v], the cleaned text of a value element. *)
Definition value_of (val : value_div) : string := clean (Some (value_text val)).

(** The cleaned texts of the [span] elements of a value element. *)
Definition spans_of (val : value_div) : list string :=
  (fun lang => clean (Some lang)) <$> value_spans val.

(** The text the normalizer returns. *)
Definition needle_text (v : string) : string :=
  match normalize_needle v with
  | Ok out => out
  | Raise _ => ""
  end.

(** What one pass of the loop does to [result] and to [yarns]. *)
Definition step_record (key : string) (val : value_div) (result : record) : record :=
  set_if (Text.contains "languages" key) "languages" (JList (spans_of val))
    (set_if (Text.contains "sizes available" key) "sizes_available" (JStr (value_of val))
       (set_if (Text.contains "needle" key) "needle_size" (JStr (needle_text (value_of val)))
          (set_if (Text.contains "category" key) "category" (JStr (value_of val))
             (set_if (Text.contains "craft" key) "craft" (JStr (value_of val)) result)))).

Definition step_yarns (key : string) (val : value_div) (yarns : list string) : list string :=
  if Text.contains "yarn" key then yarns ++ [value_of val] else yarns.

Definition step_entry (st : record * list string) (e : string * value_div)
    : record * list string :=
  (step_record e.1 e.2 st.1, step_yarns e.1 e.2 st.2).

(** A text in which white space only occurs as single spaces: [prev] tells
    that a space may not come next (at the start, and after a space). *)
Fixpoint spaced (prev : bool) (s : string) : bool :=
  match s with
  | EmptyString => true
  | String c s' =>
      if Text.is_space c
      then bool_decide (c = " "%char) && negb prev && spaced true s'
      else spaced false s'
  end.

(** A text that does not end with white space. *)
Fixpoint trimmed_end (s : string) : bool :=
  match s with
  | EmptyString => true
  | String c EmptyString => negb (Text.is_space c)
  | String _ s' => trimmed_end s'
  end.


(** The place of a shape in the order of [SHAPE_RULES]; "unknown", which
    no rule gives, comes last. *)
Fixpoint rank_in (shapes : list string) (shape : string) : nat :=
  match shapes with
  | [] => 0
  | s :: shapes' => if decide (shape = s) then 0 else S (rank_in shapes' shape)
  end.

Definition priority (shape : string) : nat := rank_in SHAPE_RULES.*1 shape.

(** The record of [parse_html] before the loop over the field blocks, and
    before the notes are read. *)
Definition before_fields (soup : page) : record :=
  foldl (fun r kv => <[kv.1 := JStr kv.2]> r)
    (match page_link soup with
     | Some url => <["pattern_page" := JStr url]> ∅
     | None => ∅
     end)
    (ld_entries soup).

Definition before_notes (soup : page) : record :=
  let st := foldl step_entry (before_fields soup, []) (omap block_entry (fields soup)) in
  let result := store_yarns st.2 st.1 in
  let attrs := (fun tag => clean (Some tag)) <$> tags soup in
  match attrs with
  | [] => result
  | _ => <["attributes" := JList attrs]> result
  end.

(** The text the classifier reads in a record. *)
Definition classified_text (result : record) : string :=
  Text.lower (get_text "description" result +:+ " " +:+ get_text "full_text" result).

(** The files [main] processes, in the order in which it processes
    them. *)
Definition html_files_of (names : list string) : list string :=
  sorted (filter (fun f => endswith ".html" f = true) names).

(** The record of the page stored under a file name, or what reading the
    page raises. *)
Definition record_at (translate : string → result string) (read : string → result page)
    (file : string) : result record :=
  soup ← read (path_join HTML_DIR file); (parse_html translate soup).2.

(** The path of the record of a page. *)
Definition out_path (file : string) : string :=
  path_join OUT_DIR (replace ".html" ".json" file).

(** * Verification *)

(** ** Texts *)

Section TextFacts.

Lemma str_app_nil_l (s : string) : "" +:+ s = s.
Proof. reflexivity. Qed.

Lemma str_app_cons (c : ascii) (a b : string) : String c a +:+ b = String c (a +:+ b).
Proof. reflexivity. Qed.

Lemma str_app_nil_r (s : string) : s +:+ "" = s.
Proof. induction s as [|c s IH]; [done | by rewrite str_app_cons, IH]. Qed.

Lemma str_app_assoc (a b c : string) : (a +:+ b) +:+ c = a +:+ b +:+ c.
Proof. induction a as [|x a IH]; [done | by rewrite !str_app_cons, IH]. Qed.

Lemma str_length_app (a b : string) :
  String.length (a +:+ b) = String.length a + String.length b.
Proof. induction a as [|x a IH]; [done | rewrite str_app_cons; simpl; by rewrite IH]. Qed.

Lemma str_take_app (a b : string) : Text.take (String.length a) (a +:+ b) = a.
Proof.
  induction a as [|x a IH]; [by destruct b|].
  rewrite str_app_cons. simpl. by rewrite IH.
Qed.

Lemma lower_app (a b : string) :
  Text.lower (a +:+ b) = Text.lower a +:+ Text.lower b.
Proof.
  induction a as [|x a IH]; [done|].
  rewrite str_app_cons. unfold Text.lower in *. simpl. by rewrite IH.
Qed.

Lemma startswith_spec (p s : string) :
  Text.startswith p s = true ↔ ∃ t, s = p +:+ t.
Proof.
  revert s. induction p as [|a p IH]; intros s.
  - split; [intros _; by exists s | done].
  - destruct s as [|b s]; simpl.
    + split; [done | intros [t Ht]; discriminate].
    + case_decide as Hab.
      * subst b. rewrite IH. split; intros [t Ht]; exists t.
        -- by rewrite Ht.
        -- rewrite str_app_cons in Ht. by injection Ht.
      * split; [done | intros [t Ht]]. rewrite str_app_cons in Ht. by injection Ht.
Qed.

Lemma contains_spec (k s : string) :
  Text.contains k s = true ↔ occurs_in k s.
Proof.
  unfold occurs_in. induction s as [|c s IH]; simpl.
  - rewrite orb_false_r, startswith_spec. split.
    + intros [t Ht]. by exists "", t.
    + intros (a & b & Hab). destruct a; [by exists b | discriminate].
  - rewrite orb_true_iff, startswith_spec, IH. split.
    + intros [[t Ht] | (a & b & Hab)].
      * by exists "", t.
      * exists (String c a), b. by rewrite Hab.
    + intros (a & b & Hab). destruct a as [|x a].
      * left. by exists b.
      * right. exists a, b. rewrite str_app_cons in Hab. by injection Hab.
Qed.

Lemma contains_false (k s : string) :
  Text.contains k s = false ↔ ¬ occurs_in k s.
Proof. rewrite <- contains_spec. by destruct (Text.contains k s). Qed.

(** Lower-casing keeps an occurrence. *)
Lemma occurs_in_lower (k t : string) :
  occurs_in k t → occurs_in (Text.lower k) (Text.lower t).
Proof.
  intros (a & b & ->). exists (Text.lower a), (Text.lower b).
  by rewrite !lower_app.
Qed.

Lemma any_in_spec (keys : list string) (text : string) :
  any_in keys text = true ↔ ∃ k, k ∈ keys ∧ occurs_in k text.
Proof.
  unfold any_in. rewrite existsb_exists. split.
  - intros (k & Hk & Hc). exists k. by rewrite list_elem_of_In, <- contains_spec.
  - intros (k & Hk & Hc). exists k. by rewrite <- list_elem_of_In, contains_spec.
Qed.

Lemma any_in_false (keys : list string) (text : string) :
  any_in keys text = false ↔ ∀ k, k ∈ keys → ¬ occurs_in k text.
Proof.
  rewrite <- not_true_iff_false, any_in_spec. split.
  - intros Hno k Hk Hocc. apply Hno. by exists k.
  - intros Hno (k & Hk & Hocc). by apply (Hno k).
Qed.

End TextFacts.

(** ** The shape classifier *)

Section Shape.

(** The loop returns the shape of the first rule that has a keyword in
    the text. *)
Lemma first_shape_match (pre post : list (string * list string))
    (shape : string) (keys : list string) (text : string) :
  (∀ s ks, (s, ks) ∈ pre → any_in ks text = false) →
  any_in keys text = true →
  first_shape (pre ++ (shape, keys) :: post) text = shape.
Proof.
  intros Hpre Hkeys. induction pre as [|[s ks] pre IH]; simpl.
  - by rewrite Hkeys.
  - rewrite (Hpre s ks) by left. apply IH. intros s' ks' Hrule.
    apply (Hpre s' ks'). by right.
Qed.

Lemma first_shape_none (rules : list (string * list string)) (text : string) :
  (∀ s ks, (s, ks) ∈ rules → any_in ks text = false) →
  first_shape rules text = "unknown".
Proof.
  intros Hno. induction rules as [|[s ks] rules IH]; simpl; [done|].
  rewrite (Hno s ks) by left. apply IH. intros s' ks' Hrule.
  apply (Hno s' ks'). by right.
Qed.

Lemma lower_ball : Text.lower "ball" = "ball".
Proof. reflexivity. Qed.

End Shape.

(** C5. Shape classification walks the rules in the fixed order sphere,
    cube, cone, pyramid, cylinder, softie and returns the shape of the first
    rule one of whose keywords occurs in the lower-cased text; it returns
    "unknown" when no keyword of any rule occurs; a text in which both
    "ball" and "box" occur is classified "sphere". *)
Theorem detect_shape_first_match (text : string) :
  SHAPE_RULES.*1 = ["sphere"; "cube"; "cone"; "pyramid"; "cylinder"; "softie"] ∧
  (∀ pre shape keys post,
     SHAPE_RULES = pre ++ (shape, keys) :: post →
     (∃ k, k ∈ keys ∧ occurs_in k (Text.lower text)) →
     (∀ shape' keys' k', (shape', keys') ∈ pre → k' ∈ keys' →
        ¬ occurs_in k' (Text.lower text)) →
     detect_shape text = shape) ∧
  ((∀ shape keys k, (shape, keys) ∈ SHAPE_RULES → k ∈ keys →
      ¬ occurs_in k (Text.lower text)) →
   detect_shape text = "unknown") ∧
  (occurs_in "ball" text → occurs_in "box" text → detect_shape text = "sphere").
Proof.
  split; [reflexivity|]. split; [|split].
  - intros pre shape keys post Hrules Hkey Hpre. unfold detect_shape.
    rewrite Hrules. apply first_shape_match.
    + intros s ks Hin. apply any_in_false. intros k Hk. by apply (Hpre s ks).
    + by apply any_in_spec.
  - intros Hno. unfold detect_shape. apply first_shape_none.
    intros s ks Hin. apply any_in_false. intros k Hk. by apply (Hno s ks).
  - intros Hball _. unfold detect_shape.
    apply (first_shape_match [] _ "sphere" ["ball"; "round"; "sphere"; "egg"]).
    + intros s ks Hrule. by apply elem_of_nil in Hrule.
    + apply any_in_spec. exists "ball". split; [by left|].
      rewrite <- lower_ball. by apply occurs_in_lower.
Qed.

Lemma detect_shape_first_match_witness :
  detect_shape "A plush box with a ball inside" = "sphere" ∧
  detect_shape "a wooden box" = "cube" ∧
  detect_shape "a lace shawl" = "unknown".
Proof.
  split; [|split].
  - apply (detect_shape_first_match "A plush box with a ball inside").
    + by exists "A plush box with a ", " inside".
    + by exists "A plush ", " with a ball inside".
  - apply (proj1 (proj2 (detect_shape_first_match "a wooden box"))
             [("sphere", ["ball"; "round"; "sphere"; "egg"])]
             "cube" ["cube"; "box"; "square plush"; "block"]
             (drop 2 SHAPE_RULES)).
    + reflexivity.
    + exists "box". split; [by right; left | by exists "a wooden ", ""].
    + intros shape' keys' k' Hin Hk. apply contains_false.
      apply list_elem_of_singleton in Hin. injection Hin as -> ->.
      repeat (apply elem_of_cons in Hk as [-> | Hk]; [reflexivity|]).
      by apply elem_of_nil in Hk.
  - apply (detect_shape_first_match "a lace shawl").
    intros shape keys k Hin Hk. apply contains_false.
    unfold SHAPE_RULES in Hin.
    repeat (apply elem_of_cons in Hin as [Hin | Hin];
            [injection Hin as -> ->;
             repeat (apply elem_of_cons in Hk as [-> | Hk]; [reflexivity|]);
             by apply elem_of_nil in Hk|]).
    by apply elem_of_nil in Hin.
Defined.

(** ** Technique extraction *)

Section Techniques.

(** The order of texts compares the first code points that differ, and
    a text comes after its proper prefixes. *)
Lemma le_lexicographic (a b : ascii) (s t : string) :
  ("" ≤ t)%string ∧
  ¬ (String a s ≤ "")%string ∧
  ((String a s ≤ String b t)%string ↔
   (Text.code a < Text.code b)%N ∨ (a = b ∧ (s ≤ t)%string)).
Proof.
  unfold String.le, String.leb. split; [by destruct t|]. split; [by intros ?|].
  simpl. unfold Ascii.compare, Text.code.
  destruct (N.compare_spec (N_of_ascii a) (N_of_ascii b)) as [Heq | Hlt | Hgt].
  - apply (f_equal ascii_of_N) in Heq. rewrite !ascii_N_embedding in Heq.
    subst b. split; [by right|].
    intros [Hlt | [_ Hst]]; [lia | done].
  - split; [by left | done].
  - split; [done|]. intros [Hlt | [-> _]]; lia.
Qed.

Lemma technique_set_spec (text t : string) :
  t ∈ technique_set text ↔ t ∈ TECHNIQUES ∧ occurs_in t text.
Proof.
  unfold technique_set.
  rewrite elem_of_list_to_set, list_elem_of_filter, contains_spec. tauto.
Qed.

Lemma sorted_elem_of (l : list string) (t : string) : t ∈ sorted l ↔ t ∈ l.
Proof. unfold sorted. by rewrite merge_sort_Permutation. Qed.

Lemma sorted_NoDup (l : list string) : NoDup l → NoDup (sorted l).
Proof. unfold sorted. by rewrite merge_sort_Permutation. Qed.

(** Two enumerations of the same set are sorted to the same list. *)
Lemma sorted_enumeration (l1 l2 : list string) :
  NoDup l1 → NoDup l2 → (∀ t, t ∈ l1 ↔ t ∈ l2) → sorted l1 = sorted l2.
Proof.
  intros Hd1 Hd2 Hsame. unfold sorted.
  apply (Sorted_unique (≤)%string); try apply Sorted_merge_sort; try apply _.
  rewrite !merge_sort_Permutation. by apply NoDup_Permutation.
Qed.

End Techniques.

(** C6. Technique extraction returns exactly the phrases of the
    eleven-entry vocabulary that occur in the text, each once, in
    lexicographic order; the list does not depend on the order in which the
    set is enumerated, so that classifying the same text again yields the
    identical list. *)
Theorem techniques_exact (text : string) :
  length TECHNIQUES = 11 ∧
  (∀ t, t ∈ techniques text ↔ t ∈ TECHNIQUES ∧ occurs_in t text) ∧
  NoDup (techniques text) ∧
  Sorted (≤)%string (techniques text) ∧
  (∀ l, NoDup l → (∀ t, t ∈ l ↔ t ∈ TECHNIQUES ∧ occurs_in t text) →
        sorted l = techniques text).
Proof.
  split; [reflexivity|]. split; [|split; [|split]].
  - intros t. unfold techniques.
    by rewrite sorted_elem_of, elem_of_elements, technique_set_spec.
  - apply sorted_NoDup, NoDup_elements.
  - apply Sorted_merge_sort; apply _.
  - intros l Hd Hl. unfold techniques.
    apply sorted_enumeration; [done | apply NoDup_elements |].
    intros t. by rewrite Hl, elem_of_elements, technique_set_spec.
Qed.

Lemma techniques_exact_witness :
  sorted ["short rows"; "decreases"] = techniques "decreases, then short rows".
Proof.
  apply (techniques_exact "decreases, then short rows").
  - apply NoDup_cons. split; [|apply NoDup_singleton].
    intros Hin. apply list_elem_of_singleton in Hin. discriminate.
  - intros t. rewrite <- contains_spec. split.
    + intros Hin.
      repeat (apply elem_of_cons in Hin as [-> | Hin];
              [split; [by repeat constructor | reflexivity]|]).
      by apply elem_of_nil in Hin.
    + intros [Hin Hocc]. unfold TECHNIQUES in Hin.
      repeat (apply elem_of_cons in Hin as [-> | Hin];
              [first [discriminate Hocc | by repeat constructor]|]).
      by apply elem_of_nil in Hin.
Defined.

(** ** The link extractor *)

Section Links.

Lemma link_keyword_spec (href : string) :
  link_keyword href = true ↔
  ∃ k, k ∈ [".pdf"; "download"; "pattern"] ∧ occurs_in k (Text.lower href).
Proof. apply any_in_spec. Qed.

Lemma link_origin_spec (href : string) :
  link_origin href = true ↔
  occurs_in "ravelry" href ∨ ∃ rest, href = "http" +:+ rest.
Proof.
  unfold link_origin. by rewrite orb_true_iff, contains_spec, startswith_spec.
Qed.

Lemma candidate_urls_spec (anchors : list (option string)) (href : string) :
  href ∈ candidate_urls anchors ↔
  Some href ∈ anchors ∧ link_keyword href = true ∧ link_origin href = true.
Proof.
  unfold candidate_urls.
  rewrite list_elem_of_filter, list_elem_of_omap, andb_true_iff. split.
  - intros [Hc (x & Hx & Hid)]. simpl in Hid. by subst x.
  - intros [Hin Hc]. split; [done | by exists (Some href)].
Qed.

Lemma extract_download_links_elem_of (anchors : list (option string)) (href : string) :
  href ∈ extract_download_links anchors ↔
  Some href ∈ anchors ∧ link_keyword href = true ∧ link_origin href = true.
Proof.
  unfold extract_download_links.
  by rewrite elem_of_elements, elem_of_list_to_set, candidate_urls_spec.
Qed.

End Links.

(** C7. Link extraction keeps the href of an anchor exactly when the
    lower-cased href contains one of ".pdf", "download", "pattern" and the
    href contains "ravelry" or starts with "http"; the result has no
    duplicates, and two anchors with the same accepted href give one
    entry. *)
Theorem extract_download_links_spec (anchors : list (option string)) :
  NoDup (extract_download_links anchors) ∧
  (∀ href,
     href ∈ extract_download_links anchors ↔
     Some href ∈ anchors ∧
     (∃ k, k ∈ [".pdf"; "download"; "pattern"] ∧ occurs_in k (Text.lower href)) ∧
     (occurs_in "ravelry" href ∨ ∃ rest, href = "http" +:+ rest)) ∧
  (∀ href, href ∈ extract_download_links [Some href] →
           extract_download_links [Some href; Some href] = [href]).
Proof.
  split; [unfold extract_download_links; apply NoDup_elements|]. split.
  - intros href.
    by rewrite extract_download_links_elem_of, link_keyword_spec, link_origin_spec.
  - intros href Hin. apply extract_download_links_elem_of in Hin as (_ & Hk & Ho).
    unfold extract_download_links, candidate_urls. simpl.
    rewrite !filter_cons, Hk, Ho. simpl.
    rewrite (right_id_L ∅ (∪)), (idemp_L (∪)). apply elements_singleton.
Qed.

Lemma extract_download_links_spec_witness :
  extract_download_links
    [Some "https://www.ravelry.com/dl/Pattern.PDF"; Some "https://www.ravelry.com/dl/Pattern.PDF"]
  = ["https://www.ravelry.com/dl/Pattern.PDF"].
Proof.
  apply (extract_download_links_spec []). vm_compute. by left.
Defined.

(** C9. The keyword test reads the lower-cased href, the "ravelry" test
    the href as it stands: an href that does not start with "http" and
    does not contain "ravelry" in lower case is left out whatever else it
    contains, as "/Ravelry/Pattern.PDF" is, which passes the keyword test
    and whose lower-cased form contains "ravelry". *)
Theorem ravelry_test_case_sensitive (anchors : list (option string)) (href : string) :
  (Text.startswith "http" href = false →
   Text.contains "ravelry" href = false →
   href ∉ extract_download_links anchors) ∧
  link_keyword "/Ravelry/Pattern.PDF" = true ∧
  Text.contains "ravelry" (Text.lower "/Ravelry/Pattern.PDF") = true ∧
  extract_download_links [Some "/Ravelry/Pattern.PDF"] = [] ∧
  extract_download_links [Some "/ravelry/Pattern.PDF"] = ["/ravelry/Pattern.PDF"].
Proof.
  split; [|by vm_compute].
  intros Hhttp Hrav Hin.
  apply extract_download_links_elem_of in Hin as (_ & _ & Ho).
  unfold link_origin in Ho. by rewrite Hrav, Hhttp in Ho.
Qed.

Lemma ravelry_test_case_sensitive_witness :
  "/Ravelry/download/hat.pdf" ∉
    extract_download_links [Some "/Ravelry/download/hat.pdf"; Some "/ravelry/download/hat.pdf"].
Proof.
  apply (ravelry_test_case_sensitive _ "/Ravelry/download/hat.pdf"); reflexivity.
Defined.

(** ** The text normalizer *)

(** C8. [translate_to_english] never raises: when the external call raises
    it prints one warning and returns the text as it was given; when the
    call returns, it returns the translated text and prints nothing. *)
Theorem translate_to_english_total (translate : string → result string) (text : string) :
  (∃ out, (translate_to_english translate text).2 = Ok out) ∧
  (∀ e, translate text = Raise e →
        translate_to_english translate text =
        (["[warn] Translation skipped (" +:+ exn_msg e +:+ ")"], Ok text)) ∧
  (∀ translated, translate text = Ok translated →
        translate_to_english translate text = ([], Ok translated)).
Proof.
  unfold translate_to_english. destruct (translate text) as [t | e].
  - split; [by exists t|]. split; [discriminate|]. by intros ? [= ->].
  - split; [by exists text|]. split; [|discriminate]. by intros ? [= ->].
Qed.

Lemma translate_to_english_total_witness :
  translate_to_english (fun _ => Raise (Exn "TooManyRequests" "quota exceeded")) "Tricoter en rond"
  = (["[warn] Translation skipped (quota exceeded)"], Ok "Tricoter en rond") ∧
  translate_to_english (fun _ => Ok "Knit in the round") "Tricoter en rond"
  = ([], Ok "Knit in the round").
Proof.
  split.
  - exact (proj1 (proj2 (translate_to_english_total _ "Tricoter en rond"))
             (Exn "TooManyRequests" "quota exceeded") eq_refl).
  - exact (proj2 (proj2 (translate_to_english_total _ "Tricoter en rond"))
             "Knit in the round" eq_refl).
Defined.

(** ** The matcher

    The backtracking matcher only reports matches of the language of the
    pattern, and a group holds the text its sub-pattern consumed. *)

Section MatcherFacts.

Lemma taken_app (w s : string) : Re.taken (w +:+ s) s = w.
Proof.
  unfold Re.taken. rewrite str_length_app.
  replace (String.length w + String.length s - String.length s)
    with (String.length w) by lia.
  apply str_take_app.
Qed.

Lemma star_sound {A} (p : ascii → bool) (s : string) (k : string → option A) (x : A) :
  Re.star p s k = Some x →
  ∃ w s', s = w +:+ s' ∧ Text.all_chars p w = true ∧ k s' = Some x.
Proof.
  induction s as [|c s IH]; simpl.
  - intros Hk. by exists "", "".
  - destruct (p c) eqn:Hpc.
    + destruct (Re.star p s k) as [y|] eqn:Hstar.
      * intros [= ->]. destruct (IH eq_refl) as (w & s' & -> & Hw & Hk).
        exists (String c w), s'. simpl. by rewrite Hpc.
      * intros Hk. by exists "", (String c s).
    + intros Hk. by exists "", (String c s).
Qed.

Lemma bt_sound {A} (r : Re.regex) (s : string) (caps : Re.captures)
    (k : string → Re.captures → option A) (x : A) :
  Re.bt r s caps k = Some x →
  ∃ w s' caps',
    s = w +:+ s' ∧ lang r w ∧
    (∀ i, i ∉ groups r → caps' !! i = caps !! i) ∧
    k s' caps' = Some x.
Proof.
  revert s caps k. induction r as [c|p|r1 IH1 r2 IH2|r1 IH1|p|p|i r1 IH1];
    intros s caps k; simpl.
  - destruct s as [|c' s]; [done|]. case_decide as Hc; [subst c'|done].
    intros Hk. by exists (String c ""), s, caps.
  - destruct s as [|c' s]; [done|]. destruct (p c') eqn:Hp; [|done].
    intros Hk. exists (String c' ""), s, caps. naive_solver.
  - intros H1. apply IH1 in H1 as (w1 & s1 & caps1 & -> & Hw1 & Hc1 & H2).
    apply IH2 in H2 as (w2 & s2 & caps2 & -> & Hw2 & Hc2 & Hk).
    exists (w1 +:+ w2), s2, caps2. rewrite str_app_assoc.
    split; [done|]. split; [by exists w1, w2|]. split; [|done].
    intros i Hi. rewrite not_elem_of_app in Hi. destruct Hi as [Hi1 Hi2].
    by rewrite Hc2, Hc1.
  - destruct (Re.bt r1 s caps k) as [y|] eqn:H1.
    + intros [= ->]. apply IH1 in H1 as (w & s' & caps' & -> & Hw & Hc & Hk).
      exists w, s', caps'. auto.
    + intros Hk. exists "", s, caps. auto.
  - intros Hs. apply star_sound in Hs as (w & s' & -> & Hw & Hk).
    by exists w, s', caps.
  - destruct s as [|c' s]; [done|]. destruct (p c') eqn:Hp; [|done].
    intros Hs. apply star_sound in Hs as (w & s' & -> & Hw & Hk).
    exists (String c' w), s', caps. simpl. rewrite Hp. auto.
  - intros H1. apply IH1 in H1 as (w & s' & caps' & -> & Hw & Hc & Hk).
    rewrite taken_app in Hk. exists w, s', (<[i := w]> caps').
    split; [done|]. split; [done|]. split; [|done].
    intros j Hj. rewrite not_elem_of_cons in Hj. destruct Hj as [Hji Hj].
    rewrite lookup_insert_ne by done. by apply Hc.
Qed.

(** A pattern that starts with group [i]: every match stores in the
    group a text of the group's sub-pattern, provided the rest of the
    pattern has no group of that number. *)
Lemma match_here_group (i : nat) (r1 r2 : Re.regex) (s : string)
    (caps : Re.captures) (rest : string) :
  i ∉ groups r2 →
  Re.match_here (Re.Seq (Re.Group i r1) r2) s = Some (caps, rest) →
  ∃ w, caps !! i = Some w ∧ lang r1 w.
Proof.
  intros Hi. unfold Re.match_here. simpl. intros H1.
  apply bt_sound in H1 as (w & s' & caps' & -> & Hw & _ & H2).
  rewrite taken_app in H2.
  apply bt_sound in H2 as (w2 & s2 & caps2 & -> & _ & Hc & [= <- <-]).
  exists w. split; [|done]. rewrite Hc by done. apply lookup_insert_eq.
Qed.

(** Every element of a scan is a match at some position. *)
Lemma scan_match (r : Re.regex) (skip : nat) (s : string) (caps : Re.captures) :
  caps ∈ Re.scan r skip s → ∃ s0 rest, Re.match_here r s0 = Some (caps, rest).
Proof.
  revert skip. induction s as [|c s IH]; intros skip.
  - destruct skip; simpl; [|by intros ?%elem_of_nil].
    destruct (Re.match_here r "") as [[caps0 rest]|] eqn:Hm;
      [|by intros ?%elem_of_nil].
    intros ->%list_elem_of_singleton. by exists "", rest.
  - destruct skip; simpl; [|apply IH].
    destruct (Re.match_here r (String c s)) as [[caps0 rest]|] eqn:Hm; [|apply IH].
    intros [-> | Hin]%elem_of_cons; [by exists (String c s), rest | by eapply IH].
Qed.

End MatcherFacts.

(** ** The needle-size normalizer *)

Section Needle.

Lemma digit_not_point (c : ascii) : Text.is_digit c = true → c ≠ "."%char.
Proof. by intros Hd ->. Qed.

Lemma split_point_digits (w rest : string) :
  Text.all_chars Text.is_digit w = true →
  PyFloat.split_point (w +:+ rest) =
  ((w +:+ (PyFloat.split_point rest).1), (PyFloat.split_point rest).2).
Proof.
  induction w as [|c w IH]; intros Hw.
  - rewrite !str_app_nil_l. by destruct (PyFloat.split_point rest).
  - simpl in Hw. apply andb_true_iff in Hw as [Hc Hw].
    rewrite !str_app_cons. simpl. rewrite decide_False by by apply digit_not_point.
    by rewrite IH.
Qed.

Lemma is_digits_intro (w : string) :
  w ≠ "" → Text.all_chars Text.is_digit w = true → PyFloat.is_digits w = true.
Proof. by destruct w. Qed.

(** [float] reads every text of group 1. *)
Lemma float_mm_group (w : string) : lang MM_GROUP w → ∃ x, PyFloat.float w = Ok x.
Proof.
  intros (w1 & w2 & -> & [Hne Hd] & [-> | Hfrac]); unfold PyFloat.float.
  - rewrite split_point_digits by done. simpl. rewrite str_app_nil_r.
    rewrite is_digits_intro by done. eauto.
  - destruct Hfrac as (a & b & -> & -> & Hbne & Hb).
    rewrite split_point_digits by done. simpl. rewrite str_app_nil_r.
    rewrite !is_digits_intro by done. simpl. eauto.
Qed.

Lemma findall_mm_float (s : string) (m : Re.captures) :
  m ∈ Re.findall MM_RE s → ∃ x, PyFloat.float (Re.group 1 m) = Ok x.
Proof.
  intros Hin. apply scan_match in Hin as (s0 & rest & Hm).
  apply match_here_group in Hm as (w & Hw & Hlang).
  - unfold Re.group. rewrite Hw. by apply float_mm_group.
  - simpl. by apply not_elem_of_nil.
Qed.

Lemma mapM_Ok {A B} (f : A → result B) (l : list A) :
  (∀ a, a ∈ l → ∃ b, f a = Ok b) → ∃ bs, mapM f l = Ok bs.
Proof.
  induction l as [|a l IH]; intros Hf; simpl.
  - by exists [].
  - destruct (Hf a) as [b Hb]; [by left|]. rewrite Hb. simpl.
    destruct IH as [bs Hbs]; [intros a' Ha'; apply Hf; by right|].
    rewrite Hbs. simpl. by exists (b :: bs).
Qed.

(** The metric values of a text: [mm_vals]. *)
Lemma mm_vals_Ok (s : string) :
  ∃ mm_vals, mapM (fun m => PyFloat.float (Re.group 1 m)) (Re.findall MM_RE s) = Ok mm_vals.
Proof. apply mapM_Ok. intros m. apply findall_mm_float. Qed.

Lemma mapM_Ok_length {A B} (f : A → result B) (l : list A) (bs : list B) :
  mapM f l = Ok bs → length bs = length l.
Proof.
  revert bs. induction l as [|a l IH]; intros bs; simpl.
  - by intros [= <-].
  - destruct (f a) as [b|e]; simpl; [|done].
    destruct (mapM f l) as [bs'|e]; simpl; [|done].
    intros [= <-]. simpl. by rewrite (IH bs').
Qed.

Lemma normalize_needle_Ok (val : string) : ∃ out, normalize_needle val = Ok out.
Proof.
  unfold normalize_needle. case_decide; [by exists ""|].
  destruct (mm_vals_Ok (Text.lower val)) as [mm_vals ->]. simpl. eauto.
Qed.

(** With no match of either pattern the lower-cased text is returned. *)
Lemma normalize_needle_passthrough (val : string) :
  Re.findall MM_RE (Text.lower val) = [] →
  Re.findall US_RE (Text.lower val) = [] →
  normalize_needle val = Ok (Text.lower val).
Proof.
  intros Hmm Hus. unfold normalize_needle. case_decide as Hval; [by subst val|].
  by rewrite Hmm, Hus.
Qed.

End Needle.

(** *** The table lookup for a metric value *)

Section Lookup.

Variable mm : spec_float.

Lemma lookup_us_in_snoc (table : list (string * spec_float)) (k : string) (v : spec_float) :
  lookup_us_in (table ++ [(k, v)]) mm =
  if within_tolerance v mm then Some k else lookup_us_in table mm.
Proof. unfold lookup_us_in. by rewrite foldl_app. Qed.

(** Entries out of tolerance leave [us] as it is. *)
Lemma lookup_us_in_app_out (pre post : list (string * spec_float)) :
  (∀ k v, (k, v) ∈ post → within_tolerance v mm = false) →
  lookup_us_in (pre ++ post) mm = lookup_us_in pre mm.
Proof.
  induction post as [|[k v] post IH] using rev_ind; intros Hout.
  - by rewrite app_nil_r.
  - rewrite app_assoc, lookup_us_in_snoc.
    rewrite (Hout k v) by (apply elem_of_app; right; by left).
    apply IH. intros k' v' Hin. apply (Hout k' v'), elem_of_app. by left.
Qed.

Lemma lookup_us_in_Some (table : list (string * spec_float)) (k : string) :
  lookup_us_in table mm = Some k →
  ∃ pre v post,
    table = pre ++ (k, v) :: post ∧ within_tolerance v mm = true ∧
    ∀ k' v', (k', v') ∈ post → within_tolerance v' mm = false.
Proof.
  induction table as [|[k1 v1] table IH] using rev_ind; [done|].
  rewrite lookup_us_in_snoc. destruct (within_tolerance v1 mm) eqn:Hw.
  - intros [= ->]. exists table, v1, []. split; [done|]. split; [done|].
    by intros k' v' ?%elem_of_nil.
  - intros (pre & v & post & -> & Hv & Hpost)%IH.
    exists pre, v, (post ++ [(k1, v1)]). rewrite <- app_assoc. split; [done|].
    split; [done|]. intros k' v' [Hin | Hin%list_elem_of_singleton]%elem_of_app.
    + by apply (Hpost k' v').
    + by injection Hin as -> ->.
Qed.

Lemma lookup_us_in_last (pre post : list (string * spec_float)) (k : string) (v : spec_float) :
  within_tolerance v mm = true →
  (∀ k' v', (k', v') ∈ post → within_tolerance v' mm = false) →
  lookup_us_in (pre ++ (k, v) :: post) mm = Some k.
Proof.
  intros Hv Hpost. rewrite cons_middle, app_assoc.
  rewrite lookup_us_in_app_out by done. rewrite lookup_us_in_snoc. by rewrite Hv.
Qed.

Lemma lookup_us_in_None (table : list (string * spec_float)) :
  lookup_us_in table mm = None ↔
  ∀ k v, (k, v) ∈ table → within_tolerance v mm = false.
Proof.
  split.
  - induction table as [|[k1 v1] table IH] using rev_ind;
      [by intros _ k v ?%elem_of_nil|].
    rewrite lookup_us_in_snoc. destruct (within_tolerance v1 mm) eqn:Hw; [done|].
    intros Hnone k v [Hin | Hin%list_elem_of_singleton]%elem_of_app.
    + by apply (IH Hnone k v).
    + by injection Hin as -> ->.
  - intros Hout. by rewrite <- (app_nil_l table), lookup_us_in_app_out.
Qed.

Lemma US_NEEDLES_keys :
  US_NEEDLES.*1 =
  ["0"; "1"; "2"; "3"; "4"; "5"; "6"; "7"; "8"; "9"; "10"; "10.5"; "11"; "13"; "15"].
Proof. by vm_compute. Qed.

Lemma lookup_us_key (k : string) : lookup_us mm = Some k → k ≠ "".
Proof.
  intros (pre & v & post & Htable & _)%lookup_us_in_Some.
  assert (k ∈ US_NEEDLES.*1) as Hin.
  { rewrite Htable, fmap_app, fmap_cons. apply elem_of_app. right. by left. }
  intros ->. rewrite US_NEEDLES_keys in Hin.
  repeat (apply elem_of_cons in Hin as [Hin | Hin]; [discriminate|]).
  by apply elem_of_nil in Hin.
Qed.

End Lookup.

(** C2, as the specification words it, fails: for 3.61 mm the closest
    entry is US 4 (3.5 mm), at a distance within the tolerance, and the
    normalizer reports US 5 (3.75 mm). *)
Lemma lookup_us_not_closest :
  PyFloat.float "3.61" = Ok (PyFloat.literal "3.61") ∧
  spec_lookup_us (PyFloat.literal "3.61") = Some "4" ∧
  lookup_us (PyFloat.literal "3.61") = Some "5" ∧
  normalize_needle "3.61 mm" = Ok "US 5 (3.61 mm)".
Proof. by vm_compute. Qed.

(** C2, amended. For a metric value the normalizer selects the last entry
    of the conversion table, in table order, whose absolute difference from
    the value is strictly below 0.15; it emits "US {us} ({mm} mm)" when
    there is such an entry and "{mm} mm" when there is none; "4.5 mm"
    gives "US 7 (4.5 mm)" and "7 mm" gives "7.0 mm". *)
Theorem lookup_us_last_within (mm : spec_float) :
  (∀ k, lookup_us mm = Some k ↔
        ∃ pre v post,
          US_NEEDLES = pre ++ (k, v) :: post ∧ within_tolerance v mm = true ∧
          ∀ k' v', (k', v') ∈ post → within_tolerance v' mm = false) ∧
  (lookup_us mm = None ↔ ∀ k v, (k, v) ∈ US_NEEDLES → within_tolerance v mm = false) ∧
  mm_fragment mm =
    match lookup_us mm with
    | Some us => "US " +:+ us +:+ " (" +:+ PyFloat.repr mm +:+ " mm)"
    | None => PyFloat.repr mm +:+ " mm"
    end ∧
  normalize_needle "4.5 mm" = Ok "US 7 (4.5 mm)" ∧
  normalize_needle "7 mm" = Ok "7.0 mm".
Proof.
  split; [|split; [|split]].
  - intros k. split; [apply lookup_us_in_Some|].
    intros (pre & v & post & Htable & Hv & Hpost). unfold lookup_us.
    rewrite Htable. by apply lookup_us_in_last.
  - apply lookup_us_in_None.
  - unfold mm_fragment. destruct (lookup_us mm) as [k|] eqn:Hk; [|done].
    apply lookup_us_key in Hk. by destruct k.
  - by vm_compute.
Qed.

Lemma lookup_us_last_within_witness :
  lookup_us (PyFloat.literal "4.5") = Some "7" ∧
  lookup_us (PyFloat.literal "7") = None.
Proof.
  split.
  - apply (lookup_us_last_within (PyFloat.literal "4.5")).
    exists (take 7 US_NEEDLES), (PyFloat.literal "4.5"), (drop 8 US_NEEDLES).
    split; [by vm_compute|]. split; [by vm_compute|].
    intros k' v' Hin.
    assert (Forall (fun kv => within_tolerance kv.2 (PyFloat.literal "4.5") = false)
                   (drop 8 US_NEEDLES)) as Hall
      by (apply (bool_decide_unpack _); by vm_compute).
    by apply (proj1 (Forall_forall _ _) Hall (k', v')).
  - apply (lookup_us_last_within (PyFloat.literal "7")).
    intros k v Hin.
    assert (Forall (fun kv => within_tolerance kv.2 (PyFloat.literal "7") = false)
                   US_NEEDLES) as Hall
      by (apply (bool_decide_unpack _); by vm_compute).
    by apply (proj1 (Forall_forall _ _) Hall (k, v)).
Defined.

(** C4, as the specification words it, fails: a text without a metric or
    US pattern is returned in lower case, not unchanged. *)
Lemma normalize_needle_lowers_passthrough :
  Re.findall MM_RE "Bamboo DPN" = [] ∧ Re.findall US_RE "Bamboo DPN" = [] ∧
  Re.findall MM_RE (Text.lower "Bamboo DPN") = [] ∧
  Re.findall US_RE (Text.lower "Bamboo DPN") = [] ∧
  normalize_needle "Bamboo DPN" = Ok "bamboo dpn" ∧
  normalize_needle "Bamboo DPN" ≠ Ok "Bamboo DPN".
Proof. by vm_compute. Qed.

(** C4, amended. The normalizer never raises; for an input in which no
    metric and no US pattern is recognized it returns the input in lower
    case; for the empty input it returns the empty text. *)
Theorem normalize_needle_never_raises (val : string) :
  (∃ out, normalize_needle val = Ok out) ∧
  (Re.findall MM_RE (Text.lower val) = [] →
   Re.findall US_RE (Text.lower val) = [] →
   normalize_needle val = Ok (Text.lower val)) ∧
  normalize_needle "" = Ok "".
Proof.
  split; [apply normalize_needle_Ok|]. split; [apply normalize_needle_passthrough|done].
Qed.

Lemma normalize_needle_never_raises_witness :
  normalize_needle "Circular, Bamboo" = Ok "circular, bamboo".
Proof.
  apply (normalize_needle_never_raises "Circular, Bamboo"); reflexivity.
Defined.

(** *** The US scan inside a longer word *)

Section WordTail.

Lemma lower_char_plain (c : ascii) :
  Text.is_digit_or_dot c = false → Text.is_digit_or_dot (Text.lower_char c) = false.
Proof. by destruct c as [[] [] [] [] [] [] [] []]. Qed.

Lemma lower_plain (w : string) : plain w → plain (Text.lower w).
Proof.
  unfold plain. induction w as [|c w IH]; [done|]. simpl.
  rewrite !andb_true_iff, !negb_true_iff. intros [Hc Hw].
  split; [by apply lower_char_plain | by apply IH].
Qed.

Lemma not_digit_or_dot_not_digit (c : ascii) :
  Text.is_digit_or_dot c = false → Text.is_digit c = false.
Proof. unfold Text.is_digit_or_dot. by intros [? _]%orb_false_iff. Qed.

(** The metric pattern does not match at a character that is no digit. *)
Lemma mm_match_not_digit (c : ascii) (s : string) :
  Text.is_digit c = false → Re.match_here MM_RE (String c s) = None.
Proof. intros Hc. unfold Re.match_here, MM_RE. cbn [Re.bt]. by rewrite Hc. Qed.

Lemma mm_scan_plain (w : string) :
  plain w → Re.scan MM_RE 0 (w +:+ "us 5") = [].
Proof.
  unfold plain. induction w as [|c w IH]; [by vm_compute|]. intros Hw.
  simpl in Hw. apply andb_true_iff in Hw as [Hc%negb_true_iff Hw].
  rewrite str_app_cons. cbn [Re.scan].
  rewrite mm_match_not_digit by by apply not_digit_or_dot_not_digit.
  by apply IH.
Qed.

(** White space is skipped only up to the next character of the word. *)
Lemma star_space_plain {A} (w : string) (k : string → option A) :
  plain w →
  (∀ c s, Text.is_digit_or_dot c = false → k (String c s) = None) →
  Re.star Text.is_space (w +:+ "us 5") k = None.
Proof.
  unfold plain. intros Hw Hk. induction w as [|c w IH].
  - rewrite str_app_nil_l. simpl. by apply Hk.
  - simpl in Hw. apply andb_true_iff in Hw as [Hc%negb_true_iff Hw].
    rewrite str_app_cons. simpl. rewrite (IH Hw), (Hk c) by done.
    by destruct (Text.is_space c).
Qed.

(** The US pattern does not match at a position inside the word. *)
Lemma us_match_plain (c : ascii) (w : string) :
  plain (String c w) → Re.match_here US_RE (String c w +:+ "us 5") = None.
Proof.
  unfold plain. simpl. intros [Hc Hw]%andb_true_iff.
  rewrite str_app_cons. unfold Re.match_here, US_RE. cbn [Re.bt].
  case_decide as Hu; [|done]. destruct w as [|c2 w].
  - by rewrite str_app_nil_l.
  - rewrite str_app_cons. case_decide as Hs; [|done].
    simpl in Hw. apply andb_true_iff in Hw as [_ Hw].
    apply star_space_plain; [done|]. intros c' s' Hc'. by rewrite Hc'.
Qed.

Lemma us_scan_plain (w : string) :
  plain w → Re.group 1 <$> Re.scan US_RE 0 (w +:+ "us 5") = ["5"].
Proof.
  induction w as [|c w IH]; [by vm_compute|]. intros Hw.
  pose proof (us_match_plain c w Hw) as Hnone. rewrite str_app_cons in *.
  cbn [Re.scan]. rewrite Hnone. apply IH.
  unfold plain in *. simpl in Hw. by apply andb_true_iff in Hw as [_ Hw].
Qed.

End WordTail.

(** C10. The US scan matches the letters "us" also at the end of a longer
    word: whatever text without digits and points stands before "us 5",
    the number is read as a US size and the output is "US 5 (3.75 mm)", so
    that "bus 5" is not passed through. *)
Theorem us_scan_matches_word_tail (w : string) :
  (plain w → normalize_needle (w +:+ "us 5") = Ok "US 5 (3.75 mm)") ∧
  normalize_needle "bus 5" = Ok "US 5 (3.75 mm)" ∧
  normalize_needle "bus 5" ≠ Ok "bus 5".
Proof.
  split; [|by vm_compute]. intros Hw. unfold normalize_needle.
  rewrite decide_False by (destruct w; discriminate).
  rewrite lower_app. change (Text.lower "us 5") with "us 5".
  apply lower_plain in Hw. unfold Re.findall.
  rewrite mm_scan_plain, us_scan_plain by done. by vm_compute.
Qed.

Lemma us_scan_matches_word_tail_witness :
  normalize_needle "Versus 5" = Ok "US 5 (3.75 mm)".
Proof.
  apply (proj1 (us_scan_matches_word_tail "Vers")). reflexivity.
Defined.

(** ** The field extractor *)

Section FieldLoop.

Lemma normalize_needle_text (v : string) : normalize_needle v = Ok (needle_text v).
Proof. unfold needle_text. by destruct (normalize_needle_Ok v) as [out ->]. Qed.

Lemma field_step_entry (st : record * list string) (f : field) :
  field_step st f = Ok (from_option (step_entry st) st (block_entry f)).
Proof.
  destruct st as [result yarns], f as [[lab|] [val|]]; try done.
  unfold field_step, block_entry. simpl.
  unfold step_entry, step_record, step_yarns, value_of, spans_of. simpl.
  destruct (Text.contains "needle" _); simpl; [|done].
  by rewrite normalize_needle_text.
Qed.

(** The loop never raises, and is the fold of [step_entry] over the blocks
    that have a label and a value. *)
Lemma field_loop_fold (st : record * list string) (fs : list field) :
  field_loop st fs = Ok (foldl step_entry st (omap block_entry fs)).
Proof.
  revert st. induction fs as [|f fs IH]; intros st; [done|]. simpl.
  rewrite field_step_entry. simpl. rewrite IH.
  by destruct (block_entry f).
Qed.

Lemma lookup_set_if_eq (c : bool) (k : string) (v : jvalue) (r : record) :
  set_if c k v r !! k = if c then Some v else r !! k.
Proof. destruct c; simpl; [apply lookup_insert_eq | done]. Qed.

Lemma lookup_set_if_ne (c : bool) (k k' : string) (v : jvalue) (r : record) :
  k ≠ k' → set_if c k v r !! k' = r !! k'.
Proof. intros Hk. destruct c; simpl; [by apply lookup_insert_ne | done]. Qed.

(** A key that each pass overwrites when the label contains [rule] holds,
    after the loop, what the last such block gave it. *)
Lemma fold_last_match (K rule : string) (g : value_div → jvalue)
    (st : record * list string) (es : list (string * value_div)) :
  (∀ key val r,
     step_record key val r !! K = if Text.contains rule key then Some (g val) else r !! K) →
  (foldl step_entry st es).1 !! K =
  from_option (fun val => Some (g val)) (st.1 !! K)
    (last (filter (fun e => Text.contains rule e.1 = true) es).*2).
Proof.
  intros Hstep. induction es as [|[key val] es IH] using rev_ind; [done|].
  rewrite foldl_app. simpl. rewrite Hstep, IH.
  rewrite filter_app, filter_cons, filter_nil. simpl.
  destruct (Text.contains rule key) eqn:Hc.
  - rewrite decide_True by done. rewrite fmap_app. simpl. by rewrite last_snoc.
  - rewrite decide_False by (by intros ?). by rewrite app_nil_r.
Qed.

(** [yarns] grows by the value of every block whose label contains
    "yarn". *)
Lemma fold_yarns (st : record * list string) (es : list (string * value_div)) :
  (foldl step_entry st es).2 =
  st.2 ++ (value_of <$> (filter (fun e => Text.contains "yarn" e.1 = true) es).*2).
Proof.
  induction es as [|[key val] es IH] using rev_ind; [by rewrite app_nil_r|].
  rewrite foldl_app. simpl. unfold step_yarns at 1. rewrite IH.
  rewrite filter_app, filter_cons, filter_nil. simpl.
  destruct (Text.contains "yarn" key) eqn:Hc.
  - rewrite decide_True by done. by rewrite !fmap_app, app_assoc.
  - rewrite decide_False by (by intros ?). by rewrite app_nil_r.
Qed.

Lemma step_record_craft (key : string) (val : value_div) (r : record) :
  step_record key val r !! "craft" =
  if Text.contains "craft" key then Some (JStr (value_of val)) else r !! "craft".
Proof.
  unfold step_record. rewrite !lookup_set_if_ne by done. apply lookup_set_if_eq.
Qed.

Lemma step_record_category (key : string) (val : value_div) (r : record) :
  step_record key val r !! "category" =
  if Text.contains "category" key then Some (JStr (value_of val)) else r !! "category".
Proof.
  unfold step_record. rewrite !lookup_set_if_ne by done.
  rewrite lookup_set_if_eq. by rewrite lookup_set_if_ne by done.
Qed.

Lemma step_record_needle (key : string) (val : value_div) (r : record) :
  step_record key val r !! "needle_size" =
  if Text.contains "needle" key then Some (JStr (needle_text (value_of val)))
  else r !! "needle_size".
Proof.
  unfold step_record. rewrite !lookup_set_if_ne by done.
  rewrite lookup_set_if_eq. by rewrite !lookup_set_if_ne by done.
Qed.

Lemma step_record_sizes (key : string) (val : value_div) (r : record) :
  step_record key val r !! "sizes_available" =
  if Text.contains "sizes available" key then Some (JStr (value_of val))
  else r !! "sizes_available".
Proof.
  unfold step_record. rewrite !lookup_set_if_ne by done.
  rewrite lookup_set_if_eq. by rewrite !lookup_set_if_ne by done.
Qed.

Lemma step_record_languages (key : string) (val : value_div) (r : record) :
  step_record key val r !! "languages" =
  if Text.contains "languages" key then Some (JList (spans_of val)) else r !! "languages".
Proof.
  unfold step_record. rewrite lookup_set_if_eq. by rewrite !lookup_set_if_ne by done.
Qed.

Lemma store_yarns_spec (yarns : list string) (result : record) :
  yarns ≠ [] →
  ∃ l, store_yarns yarns result !! "suggested_yarn" = Some (JList l) ∧
       NoDup l ∧ ∀ y, y ∈ l ↔ y ∈ yarns.
Proof.
  intros Hne. exists (elements (list_to_set yarns : gset string)). split; [|split].
  - destruct yarns; [done|]. apply lookup_insert_eq.
  - apply NoDup_elements.
  - intros y. by rewrite elem_of_elements, elem_of_list_to_set.
Qed.

Lemma mapM_fmap {A B C} (f : B → result C) (g : A → B) (l : list A) :
  mapM (fun a => f (g a)) l = mapM f (g <$> l).
Proof. induction l as [|a l IH]; [done|]. simpl. by rewrite IH. Qed.

(** With a match of either pattern, the output is made of the captured
    numbers alone. *)
Lemma normalize_needle_matches (v v' : string) :
  v ≠ "" → v' ≠ "" →
  Re.group 1 <$> Re.findall MM_RE (Text.lower v) =
    Re.group 1 <$> Re.findall MM_RE (Text.lower v') →
  Re.group 1 <$> Re.findall US_RE (Text.lower v) =
    Re.group 1 <$> Re.findall US_RE (Text.lower v') →
  Re.findall MM_RE (Text.lower v) ≠ [] ∨ Re.findall US_RE (Text.lower v) ≠ [] →
  normalize_needle v = normalize_needle v'.
Proof.
  intros Hv Hv' Hmm Hus Hsome. unfold normalize_needle.
  rewrite !decide_False by done.
  rewrite (mapM_fmap PyFloat.float (Re.group 1) (Re.findall MM_RE (Text.lower v))).
  rewrite (mapM_fmap PyFloat.float (Re.group 1) (Re.findall MM_RE (Text.lower v'))).
  rewrite <- Hmm, <- Hus.
  destruct (mapM PyFloat.float _) as [mm_vals|e] eqn:Hvals; [|done]. simpl.
  apply mapM_Ok_length in Hvals. rewrite length_fmap in Hvals.
  destruct (_ ++ _) as [|fragment results] eqn:Hresults; [|done].
  apply app_eq_nil in Hresults as [Hm Hu].
  apply fmap_nil_inv in Hm. apply fmap_nil_inv in Hu. apply fmap_nil_inv in Hu.
  subst mm_vals. destruct Hsome as [Hsome | Hsome]; [|done].
  by destruct (Re.findall MM_RE (Text.lower v)).
Qed.

End FieldLoop.

(** C3, as the specification words it, fails for the languages: of two
    blocks labelled "Languages" only the spans of the second are kept. *)
Lemma languages_not_accumulated :
  ∃ result yarns,
    field_loop (∅, [])
      [ {| field_label := Some "Languages";
           field_value := Some {| value_text := "English"; value_spans := ["English"] |} |};
        {| field_label := Some "Languages";
           field_value := Some {| value_text := "French"; value_spans := ["French"] |} |} ]
    = Ok (result, yarns) ∧
    result !! "languages" = Some (JList ["French"]).
Proof. eexists _, _. split; [reflexivity | by vm_compute]. Qed.

(** C3, amended. Over the field blocks of a page that have a label and a
    value, the yarn values of all matching blocks are accumulated and
    stored as a set; languages holds the span texts of the most recent
    matching block only; craft, category and sizes available hold the
    value of the most recent matching block, and needle_size the
    normalized value of the most recent matching block. A key without a
    matching block keeps what it had before the loop. *)
Theorem field_loop_last_match (fs : list field) (result0 : record) :
  ∃ result yarns,
    field_loop (result0, []) fs = Ok (result, yarns) ∧
    yarns = value_of <$> matching "yarn" fs ∧
    (yarns ≠ [] →
     ∃ l, store_yarns yarns result !! "suggested_yarn" = Some (JList l) ∧
          NoDup l ∧ ∀ y, y ∈ l ↔ ∃ val, val ∈ matching "yarn" fs ∧ y = value_of val) ∧
    result !! "languages" =
      from_option (fun val => Some (JList (spans_of val))) (result0 !! "languages")
        (last (matching "languages" fs)) ∧
    result !! "craft" =
      from_option (fun val => Some (JStr (value_of val))) (result0 !! "craft")
        (last (matching "craft" fs)) ∧
    result !! "category" =
      from_option (fun val => Some (JStr (value_of val))) (result0 !! "category")
        (last (matching "category" fs)) ∧
    result !! "sizes_available" =
      from_option (fun val => Some (JStr (value_of val))) (result0 !! "sizes_available")
        (last (matching "sizes available" fs)) ∧
    result !! "needle_size" =
      from_option (fun val => Some (JStr (needle_text (value_of val))))
        (result0 !! "needle_size") (last (matching "needle" fs)).
Proof.
  rewrite field_loop_fold.
  destruct (foldl step_entry (result0, []) (omap block_entry fs)) as [result yarns] eqn:Hfold.
  exists result, yarns. split; [done|].
  assert (yarns = value_of <$> matching "yarn" fs) as Hyarns.
  { change yarns with (result, yarns).2. rewrite <- Hfold. by rewrite fold_yarns. }
  split; [done|]. split.
  { intros Hne. destruct (store_yarns_spec yarns result Hne) as (l & Hl & Hd & Hin).
    exists l. split; [done|]. split; [done|]. intros y.
    rewrite Hin, Hyarns, list_elem_of_fmap.
    split; intros (val & H1 & H2); by exists val. }
  change result with (result, yarns).1. rewrite <- Hfold. unfold matching.
  repeat split.
  - apply (fold_last_match "languages" "languages" (fun val => JList (spans_of val))).
    apply step_record_languages.
  - apply (fold_last_match "craft" "craft" (fun val => JStr (value_of val))).
    apply step_record_craft.
  - apply (fold_last_match "category" "category" (fun val => JStr (value_of val))).
    apply step_record_category.
  - apply (fold_last_match "sizes_available" "sizes available"
             (fun val => JStr (value_of val))).
    apply step_record_sizes.
  - apply (fold_last_match "needle_size" "needle"
             (fun val => JStr (needle_text (value_of val)))).
    apply step_record_needle.
Qed.

Lemma field_loop_last_match_witness :
  ∃ result yarns,
    field_loop (∅, [])
      [ {| field_label := Some "Craft";
           field_value := Some {| value_text := "Knitting"; value_spans := [] |} |};
        {| field_label := Some "Yarn";
           field_value := Some {| value_text := "Merino"; value_spans := [] |} |};
        {| field_label := None; field_value := None |};
        {| field_label := Some " craft ";
           field_value := Some {| value_text := " Crochet "; value_spans := [] |} |};
        {| field_label := Some "Yarn weight";
           field_value := Some {| value_text := "Merino"; value_spans := [] |} |} ]
    = Ok (result, yarns) ∧
    result !! "craft" = Some (JStr "Crochet") ∧
    yarns = ["Merino"; "Merino"] ∧
    store_yarns yarns result !! "suggested_yarn" = Some (JList ["Merino"]).
Proof.
  match goal with
  | |- ∃ result yarns, field_loop (_, _) ?fs = _ ∧ _ =>
      destruct (field_loop_last_match fs ∅)
        as (result & yarns & Hloop & Hyarns & _ & _ & Hcraft & _)
  end.
  exists result, yarns. split; [exact Hloop|]. split; [exact Hcraft|].
  assert (yarns = ["Merino"; "Merino"]) as -> by (rewrite Hyarns; by vm_compute).
  split; [done|]. unfold store_yarns. rewrite lookup_insert_eq. by vm_compute.
Defined.

(** C1, as the specification words it, fails: the field keeps the
    dual-unit form and drops the rest of the raw text, so that two raw
    values with different descriptive words give the same field. *)
Lemma needle_size_drops_raw_text :
  ∃ result yarns,
    field_step (∅, [])
      {| field_label := Some "Needle size";
         field_value := Some {| value_text := "US 8 bamboo circular"; value_spans := [] |} |}
    = Ok (result, yarns) ∧
    result !! "needle_size" = Some (JStr "US 8 (5.0 mm)") ∧
    Text.contains "bamboo" "US 8 (5.0 mm)" = false ∧
    normalize_needle "US 8 bamboo circular" = normalize_needle "US 8 steel DPN".
Proof. eexists _, _. split; [reflexivity | by vm_compute]. Qed.

(** C1, amended. The needle_size field holds the output of the normalizer
    alone: for a block whose label contains "needle" the stored text is
    [normalize_needle] of the cleaned value; it is the raw value in lower
    case when no metric and no US pattern is recognized, and otherwise it
    is built from the captured numbers alone, the same for any two raw
    values in which the same numbers are captured. *)
Theorem needle_size_normalized_only (v : string) :
  normalize_needle v = Ok (needle_text v) ∧
  (∀ lab val st,
     value_of val = v →
     Text.contains "needle" (Text.lower (clean (Some lab))) = true →
     ∃ st', field_step st {| field_label := Some lab; field_value := Some val |} = Ok st' ∧
            st'.1 !! "needle_size" = Some (JStr (needle_text v))) ∧
  (Re.findall MM_RE (Text.lower v) = [] → Re.findall US_RE (Text.lower v) = [] →
   needle_text v = Text.lower v) ∧
  (∀ v',
     v ≠ "" → v' ≠ "" →
     Re.group 1 <$> Re.findall MM_RE (Text.lower v) =
       Re.group 1 <$> Re.findall MM_RE (Text.lower v') →
     Re.group 1 <$> Re.findall US_RE (Text.lower v) =
       Re.group 1 <$> Re.findall US_RE (Text.lower v') →
     Re.findall MM_RE (Text.lower v) ≠ [] ∨ Re.findall US_RE (Text.lower v) ≠ [] →
     needle_text v = needle_text v').
Proof.
  split; [apply normalize_needle_text|]. split; [|split].
  - intros lab val st <- Hneedle. rewrite field_step_entry. eexists. split; [done|].
    simpl. by rewrite step_record_needle, Hneedle.
  - intros Hmm Hus. unfold needle_text.
    by rewrite normalize_needle_passthrough.
  - intros v' Hv Hv' Hmm Hus Hsome. unfold needle_text.
    by rewrite (normalize_needle_matches v v').
Qed.

Lemma needle_size_normalized_only_witness :
  needle_text "4.5 mm (Bamboo)" = needle_text "4.5mm steel" ∧
  needle_text "Bamboo" = "bamboo".
Proof.
  split.
  - apply (needle_size_normalized_only "4.5 mm (Bamboo)"); try done.
    left. by vm_compute.
  - by apply (needle_size_normalized_only "Bamboo").
Defined.

(** ** The record assembler *)

Section Assembler.

(** The classifier reads the lower-cased description and full text, and
    the record always has its techniques, its shape and its links. *)
Lemma classify_spec (soup : page) (result : record) :
  let text :=
    Text.lower (get_text "description" result +:+ " " +:+ get_text "full_text" result) in
  classify soup result !! "techniques" = Some (JList (techniques text)) ∧
  classify soup result !! "shape" = Some (JStr (detect_shape text)) ∧
  classify soup result !! "download_links" =
    Some (JList (extract_download_links (anchors soup))).
Proof.
  intros text. unfold classify. fold text.
  destruct (_ !! "name"), (title soup);
    rewrite ?(lookup_insert_ne _ "name") by done;
    rewrite ?(lookup_insert_ne _ "download_links") by done;
    rewrite ?(lookup_insert_ne _ "shape") by done;
    by rewrite !lookup_insert_eq.
Qed.

(** [parse_html] does not raise on a page it could read. *)
Lemma parse_html_Ok (translate : string → result string) (soup : page) :
  ∃ printed result, parse_html translate soup = (printed, Ok result).
Proof.
  unfold parse_html. rewrite field_loop_fold.
  destruct (foldl step_entry _ _) as [result yarns].
  destruct (notes soup) as [block|]; [|by eexists _, _].
  unfold translate_to_english. destruct (translate _); by eexists _, _.
Qed.

End Assembler.

(** ** Cleaning *)

Section Clean.

Lemma sub_ws_spaced (b : bool) (t : string) : spaced b (Text.sub_ws b t) = true.
Proof.
  revert b. induction t as [|c t IH]; intros b; [done|]. simpl.
  destruct (Text.is_space c) eqn:Hc.
  - destruct b; [apply IH|]. simpl. by rewrite IH.
  - simpl. rewrite Hc. apply IH.
Qed.

Lemma spaced_weaken (b : bool) (s : string) : spaced true s = true → spaced b s = true.
Proof.
  destruct s as [|c s]; [done|]. simpl. destruct (Text.is_space c); [|done].
  by rewrite andb_false_r.
Qed.

Lemma lstrip_spaced (b : bool) (s : string) :
  spaced b s = true → spaced true (Text.lstrip s) = true.
Proof.
  revert b. induction s as [|c s IH]; intros b; [done|]. simpl.
  destruct (Text.is_space c) eqn:Hc.
  - intros [_ Hs]%andb_true_iff. by apply (IH true).
  - simpl. by rewrite Hc.
Qed.

Lemma rstrip_spaced (b : bool) (s : string) :
  spaced b s = true → spaced b (Text.rstrip s) = true.
Proof.
  revert b. induction s as [|c s IH]; intros b; [done|]. simpl.
  destruct (Text.is_space c) eqn:Hc.
  - intros [Hcb Hs]%andb_true_iff. apply IH in Hs.
    destruct (Text.rstrip s) as [|c' r]; [done|]. simpl in *.
    by rewrite Hc, Hcb.
  - intros Hs. apply IH in Hs.
    destruct (Text.rstrip s) as [|c' r]; simpl in *; by rewrite Hc.
Qed.

Lemma rstrip_trimmed (s : string) : trimmed_end (Text.rstrip s) = true.
Proof.
  induction s as [|c s IH]; [done|]. simpl.
  destruct (Text.rstrip s) as [|c' r] eqn:Hr.
  - destruct (Text.is_space c) eqn:Hc; simpl; [done | by rewrite Hc].
  - done.
Qed.

Lemma clean_spaced (text : option string) : spaced true (clean text) = true.
Proof.
  unfold clean, Text.strip. apply rstrip_spaced, (lstrip_spaced false), sub_ws_spaced.
Qed.

Lemma clean_trimmed (text : option string) : trimmed_end (clean text) = true.
Proof. unfold clean, Text.strip. apply rstrip_trimmed. Qed.

(** A text that is already in the form [clean] produces is left as it
    is by each of the three steps. *)
Lemma sub_ws_fixed (b : bool) (s : string) : spaced b s = true → Text.sub_ws b s = s.
Proof.
  revert b. induction s as [|c s IH]; intros b; [done|]. simpl.
  destruct (Text.is_space c) eqn:Hc.
  - intros [[Hsp Hb]%andb_true_iff Hs]%andb_true_iff.
    apply bool_decide_eq_true in Hsp. apply negb_true_iff in Hb. subst b c.
    by rewrite (IH true).
  - intros Hs. by rewrite (IH false).
Qed.

Lemma lstrip_fixed (s : string) : spaced true s = true → Text.lstrip s = s.
Proof.
  destruct s as [|c s]; [done|]. simpl. destruct (Text.is_space c); [|done].
  by rewrite andb_false_r.
Qed.

Lemma rstrip_fixed (s : string) : trimmed_end s = true → Text.rstrip s = s.
Proof.
  induction s as [|c s IH]; [done|]. simpl. destruct s as [|c' s].
  - simpl. by intros ->%negb_true_iff.
  - intros Hs. rewrite (IH Hs). done.
Qed.

(** What [spaced] and [trimmed_end] say about the white space of a text. *)
Lemma spaced_inside (b : bool) (a : string) (c : ascii) (s : string) :
  spaced b (a +:+ String c s) = true → Text.is_space c = true →
  c = " "%char ∧ (a = "" → b = false) ∧
  ∀ c' s', s = String c' s' → Text.is_space c' = false.
Proof.
  revert b. induction a as [|x a IH]; intros b.
  - rewrite str_app_nil_l. simpl. intros Hs Hc. rewrite Hc in Hs.
    apply andb_true_iff in Hs as [[Hsp Hb]%andb_true_iff Hs].
    apply bool_decide_eq_true in Hsp. apply negb_true_iff in Hb.
    split; [done|]. split; [done|]. intros c' s' ->. simpl in Hs.
    destruct (Text.is_space c'); [|done]. by rewrite andb_false_r in Hs.
  - rewrite str_app_cons. simpl. intros Hs Hc.
    destruct (Text.is_space x).
    + apply andb_true_iff in Hs as [_ Hs].
      destruct (IH true Hs Hc) as (? & _ & ?). done.
    + destruct (IH false Hs Hc) as (? & _ & ?). done.
Qed.

Lemma trimmed_end_last (a : string) (c : ascii) :
  trimmed_end (a +:+ String c "") = true → Text.is_space c = false.
Proof.
  induction a as [|x a IH].
  - rewrite str_app_nil_l. simpl. by intros ?%negb_true_iff.
  - rewrite str_app_cons. simpl.
    destruct (a +:+ String c "") as [|y r] eqn:Har; [by destruct a|]. done.
Qed.

End Clean.

(** X1. In the result of [clean] every white-space character is a space
    that is neither the first nor the last character and is followed by a
    character that is not white space. *)
Theorem clean_white_space (text : option string) (a : string) (c : ascii) (b : string) :
  clean text = a +:+ String c b →
  Text.is_space c = true →
  c = " "%char ∧ a ≠ "" ∧ ∃ c' b', b = String c' b' ∧ Text.is_space c' = false.
Proof.
  intros Hclean Hc.
  pose proof (clean_spaced text) as Hsp. pose proof (clean_trimmed text) as Htr.
  rewrite Hclean in Hsp, Htr.
  destruct (spaced_inside true a c b Hsp Hc) as (Hspace & Ha & Hnext).
  split; [done|]. split; [intros Hempty; by specialize (Ha Hempty)|].
  destruct b as [|c' b'].
  - apply trimmed_end_last in Htr. congruence.
  - exists c', b'. split; [done|]. by apply (Hnext c' b').
Qed.

Lemma clean_white_space_witness :
  " "%char = " "%char ∧ "Softies" ≠ "" ∧
  ∃ c' b', "Other" = String c' b' ∧ Text.is_space c' = false.
Proof.
  apply (clean_white_space (Some "  Softies    Other  ") "Softies" " " "Other");
    reflexivity.
Defined.

Lemma clean_clean (text : option string) : clean (Some (clean text)) = clean text.
Proof.
  pose proof (clean_spaced text) as Hsp. pose proof (clean_trimmed text) as Htr.
  unfold clean at 1, Text.strip. simpl.
  rewrite (sub_ws_fixed false) by by apply spaced_weaken.
  by rewrite lstrip_fixed, rstrip_fixed.
Qed.

(** X2. [clean] is idempotent: a cleaned text is left as it is, and so is
    the empty text that stands for a missing one. *)
Theorem clean_idempotent (text : option string) :
  clean (Some (clean text)) = clean text ∧ clean None = "" ∧ clean (Some "") = "".
Proof. split; [apply clean_clean | done]. Qed.

(** ** The classifier on longer texts *)

Section Extension.

Lemma occurs_in_extend (k pre t post : string) :
  occurs_in k t → occurs_in k (pre +:+ t +:+ post).
Proof.
  intros (a & b & ->). exists (pre +:+ a), (b +:+ post).
  by rewrite !str_app_assoc.
Qed.

Lemma any_in_extend (keys : list string) (pre t post : string) :
  any_in keys (Text.lower t) = true →
  any_in keys (Text.lower (pre +:+ t +:+ post)) = true.
Proof.
  rewrite !any_in_spec, !lower_app. intros (k & Hk & Hocc).
  exists k. split; [done|]. by apply occurs_in_extend.
Qed.

Lemma first_shape_in (rules : list (string * list string)) (text : string) :
  first_shape rules text ∈ rules.*1 ++ ["unknown"].
Proof.
  induction rules as [|[shape keys] rules IH]; simpl; [by left|].
  destruct (any_in keys text); [by left | by right].
Qed.

(** On two texts such that every rule that matches the first matches the
    second, the second is classified no later in the order of the rules. *)
Lemma first_shape_rank (rules : list (string * list string)) (t1 t2 : string) :
  NoDup rules.*1 → "unknown" ∉ rules.*1 →
  (∀ shape keys, (shape, keys) ∈ rules → any_in keys t1 = true → any_in keys t2 = true) →
  rank_in rules.*1 (first_shape rules t2) ≤ rank_in rules.*1 (first_shape rules t1).
Proof.
  induction rules as [|[shape keys] rules IH]; intros Hnd Hunk Hmono; [done|].
  simpl in *. apply NoDup_cons in Hnd as [Hshape Hnd].
  apply not_elem_of_cons in Hunk as [Hne Hunk].
  destruct (any_in keys t1) eqn:H1.
  - assert (any_in keys t2 = true) as -> by (apply (Hmono shape); [by left | done]).
    rewrite !decide_True by done. lia.
  - destruct (any_in keys t2) eqn:H2.
    + rewrite decide_True by done. lia.
    + assert (∀ t, first_shape rules t ≠ shape) as Hother.
      { intros t Heq. pose proof (first_shape_in rules t) as Hin.
        rewrite Heq in Hin. apply elem_of_app in Hin as [Hin | Hin]; [done|].
        apply list_elem_of_singleton in Hin. by subst shape. }
      rewrite !decide_False by apply Hother.
      apply le_n_S, IH; [done | done |].
      intros shape' keys' Hin. apply (Hmono shape'). by right.
Qed.

Lemma SHAPE_RULES_shapes :
  NoDup SHAPE_RULES.*1 ∧ "unknown" ∉ SHAPE_RULES.*1.
Proof.
  split.
  - apply (bool_decide_unpack _). by vm_compute.
  - apply (bool_decide_unpack _). by vm_compute.
Qed.

End Extension.

Lemma detect_shape_enum_aux (text : string) :
  detect_shape text ∈
    ["sphere"; "cube"; "cone"; "pyramid"; "cylinder"; "softie"; "unknown"].
Proof. unfold detect_shape. apply (first_shape_in SHAPE_RULES). Qed.

(** X3. The shape is always one of the seven values of the enumeration. *)
Theorem detect_shape_enum (text : string) :
  detect_shape text ∈
    ["sphere"; "cube"; "cone"; "pyramid"; "cylinder"; "softie"; "unknown"].
Proof. unfold detect_shape. apply (first_shape_in SHAPE_RULES). Qed.

(** X4. Text added before or after never moves the shape to a later
    rule: the shape of the longer text comes at the same place or earlier
    in the order sphere, cube, cone, pyramid, cylinder, softie, unknown. In
    particular a text classified "sphere" stays "sphere" inside any longer
    text. *)
Theorem detect_shape_extension (pre t post : string) :
  priority (detect_shape (pre +:+ t +:+ post)) ≤ priority (detect_shape t) ∧
  (detect_shape t = "sphere" → detect_shape (pre +:+ t +:+ post) = "sphere").
Proof.
  assert (priority (detect_shape (pre +:+ t +:+ post)) ≤ priority (detect_shape t)) as Hle.
  { unfold priority, detect_shape. destruct SHAPE_RULES_shapes as [Hnd Hunk].
    apply first_shape_rank; [done | done |].
    intros shape keys _. apply any_in_extend. }
  split; [done|]. intros Ht. rewrite Ht in Hle.
  pose proof (detect_shape_enum_aux (pre +:+ t +:+ post)) as Hin.
  repeat (apply elem_of_cons in Hin as [Heq | Hin];
          [rewrite Heq in Hle |- *; first [done | vm_compute in Hle; lia]|]).
  by apply elem_of_nil in Hin.
Qed.

Lemma detect_shape_extension_witness :
  detect_shape ("a box for " +:+ "a small ball" +:+ " and a toy") = "sphere".
Proof.
  apply (detect_shape_extension "a box for " "a small ball" " and a toy"). reflexivity.
Defined.

(** X5. Text added before or after never loses a technique: every
    technique of a text is a technique of any longer text around it. *)
Theorem techniques_extension (pre t post x : string) :
  x ∈ techniques t → x ∈ techniques (pre +:+ t +:+ post).
Proof.
  unfold techniques. rewrite !sorted_elem_of, !elem_of_elements, !technique_set_spec.
  intros [Hx Hocc]. split; [done|]. by apply occurs_in_extend.
Qed.

Lemma techniques_extension_witness :
  "short rows" ∈ techniques ("hat. " +:+ "worked flat with short rows" +:+ ", then seamed").
Proof.
  apply (techniques_extension "hat. " "worked flat with short rows" ", then seamed").
  apply (bool_decide_unpack _). by vm_compute.
Defined.

(** ** The conversion table in both directions *)

Section Table.

Lemma str_app_eq_nil (a b : string) : a +:+ b = "" → a = "" ∧ b = "".
Proof. destruct a; [by rewrite str_app_nil_l | by rewrite str_app_cons]. Qed.

Lemma lower_length (s : string) : String.length (Text.lower s) = String.length s.
Proof. induction s as [|c s IH]; [done|]. unfold Text.lower in *. simpl. by rewrite IH. Qed.

Lemma mm_fragment_not_empty (mm : spec_float) : mm_fragment mm ≠ "".
Proof.
  unfold mm_fragment. destruct (str_truthy _); [done|].
  intros [_ ?]%str_app_eq_nil. done.
Qed.

Lemma us_fragment_not_empty (us : string) : us_fragment us ≠ "".
Proof.
  unfold us_fragment. destruct (needles_get _ _) as [mm|]; [destruct (PyFloat.truthy mm)|]; done.
Qed.

Lemma join_not_empty (sep x : string) (l : list string) :
  x ≠ "" → Text.join sep (x :: l) ≠ "".
Proof.
  intros Hx. simpl. destruct l; [done|]. by intros [? _]%str_app_eq_nil.
Qed.

End Table.

(** X6. The two directions of the conversion agree on every entry of the
    table: for an entry (k, v), the text "US k" and the text "v mm", with
    v as [repr] prints it, are both normalized to "US k (v mm)". *)
Theorem needle_table_round_trip (k : string) (v : spec_float) :
  (k, v) ∈ US_NEEDLES →
  normalize_needle ("US " +:+ k) = Ok ("US " +:+ k +:+ " (" +:+ PyFloat.repr v +:+ " mm)") ∧
  normalize_needle (PyFloat.repr v +:+ " mm") =
    Ok ("US " +:+ k +:+ " (" +:+ PyFloat.repr v +:+ " mm)").
Proof.
  intros Hin. vm_compute in Hin.
  repeat (apply elem_of_cons in Hin as [Hin | Hin];
          [injection Hin as -> ->; by vm_compute|]).
  by apply elem_of_nil in Hin.
Qed.

Lemma needle_table_round_trip_witness :
  normalize_needle "US 10.5" = Ok "US 10.5 (6.5 mm)" ∧
  normalize_needle "6.5 mm" = Ok "US 10.5 (6.5 mm)".
Proof.
  apply (needle_table_round_trip "10.5" (PyFloat.literal "6.5")).
  apply (list_elem_of_lookup_2 _ 11). by vm_compute.
Defined.

(** X7. The normalizer returns the empty text for the empty input only. *)
Theorem normalize_needle_empty_iff (val : string) :
  normalize_needle val = Ok "" ↔ val = "".
Proof.
  split; [|by intros ->]. intros Hout. destruct (decide (val = "")) as [|Hval]; [done|].
  exfalso. revert Hout. unfold normalize_needle. rewrite decide_False by done.
  destruct (mapM _ _) as [mm_vals|e]; simpl; [|done].
  destruct mm_vals as [|mm mm_vals]; simpl.
  - destruct (Re.group 1 <$> _) as [|us us_vals]; simpl.
    + intros [= Hlow]. apply (f_equal String.length) in Hlow.
      rewrite lower_length in Hlow. by destruct val.
    + intros [= Hjoin]. by apply (join_not_empty _ _ _ (us_fragment_not_empty us)) in Hjoin.
  - intros [= Hjoin]. by apply (join_not_empty _ _ _ (mm_fragment_not_empty mm)) in Hjoin.
Qed.

(** ** What the field loop and the assembler leave alone *)

Section Frame.

Lemma step_record_frame (key : string) (val : value_div) (r : record) (K : string) :
  K ∉ ["craft"; "category"; "needle_size"; "sizes_available"; "languages"] →
  step_record key val r !! K = r !! K.
Proof.
  intros HK. unfold step_record.
  rewrite !lookup_set_if_ne; [done | | | | |];
    intros <-; apply HK; by repeat constructor.
Qed.

Lemma fold_frame (st : record * list string) (es : list (string * value_div)) (K : string) :
  K ∉ ["craft"; "category"; "needle_size"; "sizes_available"; "languages"] →
  (foldl step_entry st es).1 !! K = st.1 !! K.
Proof.
  intros HK. revert st. induction es as [|e es IH]; intros st; [done|].
  simpl. rewrite IH. simpl. by apply step_record_frame.
Qed.

Lemma fold_yarns_prefix (st : record * list string) (es : list (string * value_div)) :
  ∃ more, (foldl step_entry st es).2 = st.2 ++ more.
Proof. rewrite fold_yarns. eauto. Qed.

Lemma field_loop_app (st : record * list string) (fs1 fs2 : list field) :
  field_loop st (fs1 ++ fs2) =
  field_loop (foldl step_entry st (omap block_entry fs1)) fs2.
Proof. by rewrite !field_loop_fold, omap_app, foldl_app. Qed.

Lemma classify_frame (soup : page) (r : record) (K : string) :
  K ∉ ["techniques"; "shape"; "download_links"; "name"] →
  classify soup r !! K = r !! K.
Proof.
  intros HK. unfold classify.
  assert (K ≠ "techniques" ∧ K ≠ "shape" ∧ K ≠ "download_links" ∧ K ≠ "name")
    as (H1 & H2 & H3 & H4).
  { repeat split; intros ->; apply HK; by repeat constructor. }
  destruct (_ !! "name"), (title soup); by rewrite !lookup_insert_ne by done.
Qed.

(** The entry of [key] after the entries [kvs] were stored one by one. *)
Lemma foldl_insert_lookup (kvs : list (string * string)) (r : record) (key : string) :
  foldl (fun r kv => <[kv.1 := JStr kv.2]> r) r kvs !! key =
  match last (filter (fun kv => kv.1 = key) kvs) with
  | Some kv => Some (JStr kv.2)
  | None => r !! key
  end.
Proof.
  induction kvs as [|[k v] kvs IH] using rev_ind; [done|].
  rewrite foldl_app, filter_app, filter_cons, filter_nil. simpl.
  case_decide as Hk.
  - subst k. by rewrite last_snoc, lookup_insert_eq.
  - by rewrite app_nil_r, lookup_insert_ne.
Qed.

End Frame.

(** X8. A block without a label element or without a value element is
    skipped: the loop gives the same record and the same yarns as on the
    page without that block. *)
Theorem field_loop_skips_incomplete (st : record * list string)
    (fs1 fs2 : list field) (f : field) :
  field_label f = None ∨ field_value f = None →
  field_loop st (fs1 ++ f :: fs2) = field_loop st (fs1 ++ fs2).
Proof.
  intros Hmissing. rewrite !field_loop_fold, !omap_app. simpl.
  assert (block_entry f = None) as ->; [|done].
  unfold block_entry. destruct Hmissing as [-> | ->]; [done|].
  by destruct (field_label f).
Qed.

Lemma field_loop_skips_incomplete_witness :
  field_loop (∅, [])
    [ {| field_label := Some "Craft"; field_value := None |};
      {| field_label := Some "Craft";
         field_value := Some {| value_text := "Knitting"; value_spans := [] |} |} ]
  = field_loop (∅, [])
    [ {| field_label := Some "Craft";
         field_value := Some {| value_text := "Knitting"; value_spans := [] |} |} ].
Proof.
  apply (field_loop_skips_incomplete (∅, []) [] _
           {| field_label := Some "Craft"; field_value := None |}).
  by right.
Defined.

(** X9. The field loop never raises, stores under no key other than
    craft, category, needle_size, sizes_available and languages, and only
    appends to the list of yarns. *)
Theorem field_loop_frame (fs : list field) (result0 : record) (yarns0 : list string) :
  ∃ result yarns,
    field_loop (result0, yarns0) fs = Ok (result, yarns) ∧
    (∀ K, K ∉ ["craft"; "category"; "needle_size"; "sizes_available"; "languages"] →
          result !! K = result0 !! K) ∧
    ∃ more, yarns = yarns0 ++ more.
Proof.
  rewrite field_loop_fold.
  destruct (foldl step_entry (result0, yarns0) (omap block_entry fs))
    as [result yarns] eqn:Hfold.
  exists result, yarns. split; [done|]. split.
  - intros K HK. change result with (result, yarns).1. rewrite <- Hfold.
    by apply fold_frame.
  - change yarns with (result, yarns).2. rewrite <- Hfold. apply fold_yarns_prefix.
Qed.

(** ** The assembled record *)

(** A literal key is none of the listed literal keys. *)
Ltac other_key :=
  let Hin := fresh "Hin" in
  intros Hin;
  repeat (apply elem_of_cons in Hin as [Hin | Hin]; [discriminate Hin|]);
  by apply elem_of_nil in Hin.

Section Record.

Lemma parse_html_stages (translate : string → result string) (soup : page) :
  parse_html translate soup =
  match notes soup with
  | Some block =>
      match translate (clean (Some block)) with
      | Ok translated =>
          ([], Ok (classify soup (<["full_text" := JStr translated]> (before_notes soup))))
      | Raise e =>
          (["[warn] Translation skipped (" +:+ exn_msg e +:+ ")"],
           Ok (classify soup (<["full_text" := JStr (clean (Some block))]> (before_notes soup))))
      end
  | None => ([], Ok (classify soup (before_notes soup)))
  end.
Proof.
  unfold parse_html, before_notes, before_fields. rewrite field_loop_fold.
  destruct (foldl step_entry _ _) as [result yarns]. simpl.
  destruct (notes soup) as [block|]; [|done].
  unfold translate_to_english. by destruct (translate _).
Qed.

Lemma store_yarns_frame (yarns : list string) (r : record) (K : string) :
  K ≠ "suggested_yarn" → store_yarns yarns r !! K = r !! K.
Proof. intros HK. destruct yarns; [done|]. simpl. by rewrite lookup_insert_ne. Qed.

Lemma before_notes_frame (soup : page) (K : string) :
  K ∉ ["craft"; "category"; "needle_size"; "sizes_available"; "languages";
       "suggested_yarn"; "attributes"] →
  before_notes soup !! K = before_fields soup !! K.
Proof.
  intros HK. unfold before_notes.
  assert (K ≠ "suggested_yarn" ∧ K ≠ "attributes") as [H1 H2].
  { split; intros ->; apply HK; by repeat constructor. }
  assert (K ∉ ["craft"; "category"; "needle_size"; "sizes_available"; "languages"]) as H5.
  { intros Hin. apply HK. by repeat (apply elem_of_cons in Hin as [-> | Hin];
      [by repeat constructor|]); apply elem_of_nil in Hin. }
  destruct (_ <$> tags soup); simpl;
    rewrite ?lookup_insert_ne by done; rewrite store_yarns_frame by done;
    by rewrite fold_frame.
Qed.

Lemma classify_name (soup : page) (r : record) :
  classify soup r !! "name" =
  match r !! "name" with
  | Some n => Some n
  | None => (fun t => JStr (clean (Some t))) <$> title soup
  end.
Proof.
  unfold classify. rewrite !lookup_insert_ne by done.
  destruct (r !! "name") as [n|] eqn:Hn, (title soup); simpl;
    rewrite ?lookup_insert_eq, ?lookup_insert_ne by done; by rewrite ?Hn.
Qed.

Lemma classify_text (soup : page) (r : record) :
  classified_text (classify soup r) = classified_text r.
Proof.
  unfold classified_text, get_text. by rewrite !classify_frame by other_key.
Qed.

End Record.

Section JsonLd.

Lemma clean_json_cleaned (x : json) (t : string) :
  clean_json x = Ok t → clean (Some t) = t.
Proof.
  unfold clean_json. destruct x; try destruct (json_truthy _);
    intros [= <-]; apply clean_clean.
Qed.

Lemma get_clean_cleaned (j : json) (key : string) (default : json) (t : string) :
  (x ← json_get j key default; clean_json x) = Ok t → clean (Some t) = t.
Proof.
  destruct (json_get j key default) as [x|e]; simpl; [apply clean_json_cleaned | done].
Qed.

(** The entries of the block: none, or name, then description, then
    designer, each a cleaned text. *)
Lemma ld_entries_shape (script : option (result json)) :
  ∃ n d g,
    clean (Some n) = n ∧ clean (Some d) = d ∧ clean (Some g) = g ∧
    (ld_entries_of script = [] ∨
     ld_entries_of script = [("name", n)] ∨
     ld_entries_of script = [("name", n); ("description", d)] ∨
     ld_entries_of script = [("name", n); ("description", d); ("designer", g)]).
Proof.
  assert (clean (Some "") = "") as Hempty by done.
  destruct script as [[j|e]|]; simpl; try (exists "", "", ""; by auto 12).
  destruct (x ← json_get j "name" JNull; clean_json x) as [n|e1] eqn:Hn;
    [|exists "", "", ""; by auto 12].
  apply get_clean_cleaned in Hn.
  destruct (x ← json_get j "description" JNull; clean_json x) as [d|e2] eqn:Hd;
    [|exists n, "", ""; by auto 12].
  apply get_clean_cleaned in Hd.
  destruct (brand ← json_get j "brand" (JObject []); _) as [g|e3] eqn:Hg;
    [|exists n, d, ""; by auto 12].
  exists n, d, g. split; [done|]. split; [done|]. split; [|by auto 12].
  destruct (json_get j "brand" (JObject [])) as [brand|]; simpl in Hg; [|done].
  by apply get_clean_cleaned in Hg.
Qed.

Lemma before_fields_lookup (soup : page) (script : option (result json)) (K : string) :
  ld_entries soup = ld_entries_of script →
  K ∉ ["pattern_page"; "name"; "description"; "designer"] →
  before_fields soup !! K = None.
Proof.
  intros Hld HK. unfold before_fields. rewrite foldl_insert_lookup, Hld.
  assert (K ≠ "pattern_page" ∧ K ≠ "name" ∧ K ≠ "description" ∧ K ≠ "designer")
    as (H0 & H1 & H2 & H3).
  { repeat split; intros ->; apply HK; by repeat constructor. }
  assert (filter (fun kv : string * string => kv.1 = K) (ld_entries_of script) = []) as ->.
  { destruct (ld_entries_shape script) as (n & d & g & _ & _ & _ & Hshape).
    destruct Hshape as [-> | [-> | [-> | ->]]];
      rewrite ?filter_cons, ?filter_nil; simpl;
      by rewrite ?decide_False by done. }
  simpl. destruct (page_link soup); [by rewrite lookup_insert_ne | done].
Qed.

Lemma before_fields_name (soup : page) (script : option (result json)) :
  ld_entries soup = ld_entries_of script →
  before_fields soup !! "name" =
  match ld_entries_of script with
  | [] => None
  | kv :: _ => Some (JStr kv.2)
  end.
Proof.
  intros Hld. unfold before_fields. rewrite foldl_insert_lookup, Hld.
  destruct (ld_entries_shape script) as (n & d & g & _ & _ & _ & Hshape).
  destruct Hshape as [-> | [-> | [-> | ->]]];
    rewrite ?filter_cons, ?filter_nil; simpl; try done.
  destruct (page_link soup); [by rewrite lookup_insert_ne | done].
Qed.

End JsonLd.


(** X11. When the translation of the notes raises, the page is still
    assembled: one warning is printed, full_text holds the cleaned notes
    untranslated, and the classifier reads them. *)
Theorem parse_html_translation_failure (translate : string → result string)
    (soup : page) (block : string) (e : exn) :
  notes soup = Some block →
  translate (clean (Some block)) = Raise e →
  ∃ result,
    parse_html translate soup =
      (["[warn] Translation skipped (" +:+ exn_msg e +:+ ")"], Ok result) ∧
    result !! "full_text" = Some (JStr (clean (Some block))) ∧
    classified_text result =
      Text.lower (get_text "description" result +:+ " " +:+ clean (Some block)).
Proof.
  intros Hnotes Hraise. rewrite parse_html_stages, Hnotes, Hraise.
  eexists. split; [reflexivity|].
  assert (classify soup (<["full_text" := JStr (clean (Some block))]> (before_notes soup))
            !! "full_text" = Some (JStr (clean (Some block)))) as Hfull.
  { rewrite classify_frame by other_key. apply lookup_insert_eq. }
  split; [done|]. unfold classified_text. unfold get_text at 2. by rewrite Hfull.
Qed.

Lemma parse_html_translation_failure_witness :
  ∃ result,
    parse_html (fun _ => Raise (Exn "RequestError" "no network"))
      {| page_link := None; ld_entries := []; fields := []; tags := [];
         notes := Some " Travaille  en rond "; anchors := []; title := None |}
    = (["[warn] Translation skipped (no network)"], Ok result) ∧
    result !! "full_text" = Some (JStr "Travaille en rond") ∧
    classified_text result =
      Text.lower (get_text "description" result +:+ " " +:+ "Travaille en rond").
Proof.
  apply (parse_html_translation_failure _ _ " Travaille  en rond "
           (Exn "RequestError" "no network")); reflexivity.
Defined.

(** X12. A page without a notes element gets no full_text, prints
    nothing, and is classified by its description alone. *)
Theorem parse_html_without_notes (translate : string → result string)
    (soup : page) (script : option (result json)) :
  notes soup = None →
  ld_entries soup = ld_entries_of script →
  ∃ result,
    parse_html translate soup = ([], Ok result) ∧
    result !! "full_text" = None ∧
    classified_text result = Text.lower (get_text "description" result +:+ " ").
Proof.
  intros Hnotes Hld. rewrite parse_html_stages, Hnotes.
  eexists. split; [reflexivity|].
  assert (classify soup (before_notes soup) !! "full_text" = None) as Hfull.
  { rewrite classify_frame by other_key. rewrite before_notes_frame by other_key.
    apply (before_fields_lookup soup script); [done | other_key]. }
  split; [done|]. unfold classified_text. unfold get_text at 2.
  by rewrite Hfull, str_app_nil_r.
Qed.

Lemma parse_html_without_notes_witness :
  ∃ result,
    parse_html (fun t => Ok t)
      {| page_link := None;
         ld_entries := ld_entries_of (Some (Ok (JObject [("name", JString "Ball")])));
         fields := []; tags := []; notes := None; anchors := []; title := None |}
    = ([], Ok result) ∧
    result !! "full_text" = None ∧
    classified_text result = Text.lower (get_text "description" result +:+ " ").
Proof.
  apply (parse_html_without_notes _ _ (Some (Ok (JObject [("name", JString "Ball")]))));
    reflexivity.
Defined.

(** X13. Whatever the JSON-LD element holds, the block stores a prefix of
    name, description, designer, in this order, and every value it stores
    is a cleaned text: description is never stored without name, nor
    designer without both. *)
Theorem ld_entries_prefix (script : option (result json)) :
  (∃ n, (ld_entries_of script).*1 = take n ["name"; "description"; "designer"]) ∧
  ∀ key value, (key, value) ∈ ld_entries_of script → clean (Some value) = value.
Proof.
  destruct (ld_entries_shape script) as (n & d & g & Hn & Hd & Hg & Hshape).
  destruct Hshape as [-> | [-> | [-> | ->]]].
  - split; [by exists 0|]. by intros key value ?%elem_of_nil.
  - split; [by exists 1|]. intros key value Hin.
    repeat (apply elem_of_cons in Hin as [[= -> ->] | Hin]; [done|]).
    by apply elem_of_nil in Hin.
  - split; [by exists 2|]. intros key value Hin.
    repeat (apply elem_of_cons in Hin as [[= -> ->] | Hin]; [done|]).
    by apply elem_of_nil in Hin.
  - split; [by exists 3|]. intros key value Hin.
    repeat (apply elem_of_cons in Hin as [[= -> ->] | Hin]; [done|]).
    by apply elem_of_nil in Hin.
Qed.

(** X14. The name of the record is the one the JSON-LD block stored, if
    it stored one, and otherwise the cleaned title of the page, if there
    is a title. A decoded object without a name key makes the block store
    the empty name, so that the title is not used. *)
Theorem parse_html_name (translate : string → result string)
    (soup : page) (script : option (result json)) :
  ld_entries soup = ld_entries_of script →
  ∃ printed result,
    parse_html translate soup = (printed, Ok result) ∧
    result !! "name" =
      match ld_entries_of script with
      | [] => (fun t => JStr (clean (Some t))) <$> title soup
      | kv :: _ => Some (JStr kv.2)
      end ∧
    (∀ items, script = Some (Ok (JObject items)) → items_get "name" items = None →
              result !! "name" = Some (JStr "")).
Proof.
  intros Hld.
  assert (∀ r, r !! "name" = before_notes soup !! "name" →
            classify soup r !! "name" =
            match ld_entries_of script with
            | [] => (fun t => JStr (clean (Some t))) <$> title soup
            | kv :: _ => Some (JStr kv.2)
            end) as Hname.
  { intros r Hr. rewrite classify_name, Hr.
    rewrite before_notes_frame by other_key.
    rewrite (before_fields_name soup script Hld).
    by destruct (ld_entries_of script). }
  assert (∃ printed r, parse_html translate soup = (printed, Ok (classify soup r)) ∧
                       r !! "name" = before_notes soup !! "name")
    as (printed & r & Hparse & Hr).
  { rewrite parse_html_stages.
    destruct (notes soup) as [block|]; [destruct (translate _)|];
      eexists _, _; (split; [reflexivity|]); by rewrite ?lookup_insert_ne by done. }
  exists printed, (classify soup r). split; [done|]. split; [by apply Hname|].
  intros items -> Hmissing. rewrite (Hname r Hr). simpl. rewrite Hmissing. simpl.
  destruct (clean_json _); [|done].
  by destruct (_ ≫= _).
Qed.

Lemma parse_html_name_witness :
  ∃ printed result,
    parse_html (fun t => Ok t)
      {| page_link := None;
         ld_entries := ld_entries_of (Some (Ok (JObject [("description", JString "a hat")])));
         fields := []; tags := []; notes := None; anchors := [];
         title := Some "Ravelry: Hat" |}
    = (printed, Ok result) ∧
    result !! "name" = Some (JStr "").
Proof.
  destruct (parse_html_name (fun t => Ok t)
      {| page_link := None;
         ld_entries := ld_entries_of (Some (Ok (JObject [("description", JString "a hat")])));
         fields := []; tags := []; notes := None; anchors := [];
         title := Some "Ravelry: Hat" |}
      (Some (Ok (JObject [("description", JString "a hat")]))) eq_refl)
    as (printed & result & Hparse & _ & Hname).
  exists printed, result. split; [exact Hparse|]. by apply (Hname _ eq_refl).
Defined.

(** ** The batch *)

Section Batch.

Variable translate : string → result string.
Variable read : string → result page.

Lemma out_path_not_master (file : string) : out_path file ≠ MASTER_JSON.
Proof.
  unfold out_path, path_join. destruct (replace ".html" ".json" file) as [|c r] eqn:Hr.
  - by vm_compute.
  - destruct (Text.startswith "/" (String c r)) eqn:Hslash.
    + simpl in Hslash. case_decide as Hc; [|done]. by subst c.
    + by vm_compute.
Qed.

Lemma bind_Ok {A B} (a : A) (f : A → result B) : (Ok a ≫= f) = f a.
Proof. reflexivity. Qed.

Lemma bind_Raise {A B} (e : exn) (f : A → result B) : (Raise e ≫= f) = Raise e.
Proof. reflexivity. Qed.

Lemma mapM_cons {A B} (f : A → result B) (a : A) (l : list A) :
  mapM f (a :: l) = (y ← f a; k ← mapM f l; Ok (y :: k)).
Proof. reflexivity. Qed.

Lemma record_at_eq (file : string) :
  record_at translate read file =
  match read (path_join HTML_DIR file) with
  | Ok soup => (parse_html translate soup).2
  | Raise e => Raise e
  end.
Proof. unfold record_at. by destruct (read _). Qed.

Lemma main_loop_run (total : nat) (html_files : list string) :
  ∀ (i : nat) (files : gmap string content) (printed : list output) (all : list record),
    match mapM (record_at translate read) html_files with
    | Ok datas =>
        ∃ files' printed',
          main_loop translate read total i html_files (files, printed, all) =
            ((files', printed', all ++ datas), Ok ()) ∧
          (∀ p, p ∉ out_path <$> html_files → files' !! p = files !! p) ∧
          (∀ f, f ∈ html_files →
                ∃ data, files' !! out_path f = Some (RecordFile data) ∧ data ∈ datas)
    | Raise e =>
        ∃ files' printed' all',
          main_loop translate read total i html_files (files, printed, all) =
            ((files', printed', all'), Raise e) ∧
          (∀ p, p ∉ out_path <$> html_files → files' !! p = files !! p)
    end.
Proof.
  induction html_files as [|file html_files IH]; intros i files printed all.
  - simpl. exists files, printed. rewrite app_nil_r. split; [done|].
    split; [done|]. by intros f ?%elem_of_nil.
  - rewrite mapM_cons, record_at_eq. cbn [main_loop]. fold (out_path file).
    destruct (read (path_join HTML_DIR file)) as [soup|e] eqn:Hread.
    2: { rewrite bind_Raise. by exists files, printed, all. }
    destruct (parse_html_Ok translate soup) as (lines & data & Hparse).
    rewrite Hparse. cbn [snd]. rewrite bind_Ok.
    specialize (IH (S i) (<[out_path file := RecordFile data]> files)
                  (printed ++ (Line <$> lines) ++ [Parsed i total file]) (all ++ [data])).
    destruct (mapM (record_at translate read) html_files) as [datas|e].
    + rewrite bind_Ok. destruct IH as (files' & printed' & Hloop & Hframe & Hfiles).
      exists files', printed'. rewrite Hloop, <- app_assoc. split; [done|]. split.
      * intros p [Hp Hps]%not_elem_of_cons. rewrite Hframe by done.
        by rewrite lookup_insert_ne.
      * intros f [-> | Hf]%elem_of_cons.
        -- destruct (decide (out_path file ∈ out_path <$> html_files)) as [Hin | Hnin].
           ++ apply list_elem_of_fmap in Hin as (f' & Heq & Hf').
              destruct (Hfiles f' Hf') as (data' & Hdata' & Hin').
              exists data'. rewrite Heq. split; [done | by right].
           ++ exists data. rewrite Hframe by done. rewrite lookup_insert_eq.
              split; [done | by left].
        -- destruct (Hfiles f Hf) as (data' & Hdata' & Hin').
           exists data'. split; [done | by right].
    + rewrite bind_Raise. destruct IH as (files' & printed' & all' & Hloop & Hframe).
      exists files', printed', all'. rewrite Hloop. split; [done|].
      intros p [Hp Hps]%not_elem_of_cons. rewrite Hframe by done.
      by rewrite lookup_insert_ne.
Qed.

Lemma ensure_dir_lookup (p q : string) (files : gmap string content) :
  p ≠ q → ensure_dir p files !! q = files !! q.
Proof.
  intros Hpq. unfold ensure_dir. destruct (files !! p); [done|].
  by rewrite lookup_insert_ne.
Qed.

Lemma master_not_out (html_files : list string) : MASTER_JSON ∉ out_path <$> html_files.
Proof.
  intros (f & Heq & _)%list_elem_of_fmap. by apply (out_path_not_master f).
Qed.

Lemma mapM_Ok_Forall2 {A B} (f : A → result B) (l : list A) (bs : list B) :
  mapM f l = Ok bs → Forall2 (fun a b => f a = Ok b) l bs.
Proof.
  revert bs. induction l as [|a l IH]; intros bs; simpl.
  - intros [= <-]. constructor.
  - destruct (f a) as [b|e] eqn:Hb; simpl; [|done].
    destruct (mapM f l) as [bs'|e]; simpl; [|done].
    intros [= <-]. constructor; [done | by apply IH].
Qed.

Lemma mapM_all_Ok {A B} (f : A → result B) (l : list A) :
  (∀ a, a ∈ l → ∃ b, f a = Ok b) → ∃ bs, mapM f l = Ok bs.
Proof. apply mapM_Ok. Qed.

Lemma mapM_first_Raise {A B} (f : A → result B) (l1 l2 : list A) (a : A) (e : exn) :
  (∀ x, x ∈ l1 → ∃ b, f x = Ok b) → f a = Raise e →
  mapM f (l1 ++ a :: l2) = Raise e.
Proof.
  intros Hl1 Ha. induction l1 as [|x l1 IH]; simpl.
  - by rewrite Ha.
  - destruct (Hl1 x) as [b ->]; [by left|]. simpl.
    rewrite IH; [done|]. intros y Hy. apply Hl1. by right.
Qed.

Lemma record_at_read (file : string) :
  match read (path_join HTML_DIR file) with
  | Ok soup => ∃ data, record_at translate read file = Ok data
  | Raise e => record_at translate read file = Raise e
  end.
Proof.
  unfold record_at. destruct (read _) as [soup|e]; simpl; [|done].
  destruct (parse_html_Ok translate soup) as (lines & data & ->). by exists data.
Qed.

Lemma main_loop_abort (total : nat) (before after : list string) (file : string) (e : exn) :
  (∀ f, f ∈ before → ∃ soup, read (path_join HTML_DIR f) = Ok soup) →
  read (path_join HTML_DIR file) = Raise e →
  ∀ (i : nat) (files : gmap string content) (printed : list output) (all : list record),
    ∃ files' printed' datas,
      main_loop translate read total i (before ++ file :: after) (files, printed, all) =
        ((files', printed', all ++ datas), Raise e) ∧
      length datas = length before ∧
      (∀ p, p ∉ out_path <$> before → files' !! p = files !! p) ∧
      (∀ f, f ∈ before → ∃ data, files' !! out_path f = Some (RecordFile data)).
Proof.
  intros Hbefore Hfile. induction before as [|f0 before IH]; intros i files printed all.
  - simpl. rewrite Hfile. exists files, printed, []. rewrite app_nil_r.
    split; [done|]. split; [done|]. split; [done|]. by intros f ?%elem_of_nil.
  - rewrite <- app_comm_cons. cbn [main_loop]. fold (out_path f0).
    destruct (Hbefore f0) as [soup ->]; [by left|].
    destruct (parse_html_Ok translate soup) as (lines & data & ->).
    destruct (IH (fun f Hf => Hbefore f (list_elem_of_further _ _ _ Hf)) (S i)
                (<[out_path f0 := RecordFile data]> files)
                (printed ++ (Line <$> lines) ++ [Parsed i total f0]) (all ++ [data]))
      as (files' & printed' & datas & Hloop & Hlen & Hframe & Hfiles).
    exists files', printed', (data :: datas). rewrite Hloop, <- app_assoc.
    split; [done|]. split; [simpl; by rewrite Hlen|]. split.
    + intros p [Hp Hps]%not_elem_of_cons. rewrite Hframe by done.
      by rewrite lookup_insert_ne.
    + intros f [-> | Hf]%elem_of_cons; [|by apply Hfiles].
      destruct (decide (out_path f0 ∈ out_path <$> before)) as [Hin | Hnin].
      * apply list_elem_of_fmap in Hin as (f' & -> & Hf'). by apply Hfiles.
      * exists data. rewrite Hframe by done. apply lookup_insert_eq.
Qed.

Lemma html_files_of_spec (names : list string) (file : string) :
  file ∈ html_files_of names ↔ file ∈ names ∧ endswith ".html" file = true.
Proof.
  unfold html_files_of. rewrite sorted_elem_of, list_elem_of_filter.
  split; intros [H1 H2]; by split.
Qed.

Lemma drop_app (a b : string) : Text.drop (String.length a) (a +:+ b) = b.
Proof.
  induction a as [|c a IH]; [by destruct b|]. rewrite str_app_cons. simpl. apply IH.
Qed.

Lemma endswith_app (a suffix : string) : endswith suffix (a +:+ suffix) = true.
Proof.
  unfold endswith. rewrite str_length_app. apply andb_true_iff. split.
  - apply Nat.leb_le. lia.
  - apply bool_decide_eq_true.
    replace (String.length a + String.length suffix - String.length suffix)
      with (String.length a) by lia.
    apply drop_app.
Qed.

Lemma contains_point_cons (c : ascii) (s : string) :
  Text.contains "." (String c s) = false → c ≠ "."%char ∧ Text.contains "." s = false.
Proof.
  simpl. intros [Hc Hs]%orb_false_iff. split; [|done].
  intros ->. by rewrite decide_True in Hc.
Qed.

(** In a name without a point the extension is the only place where
    ".html" occurs. *)
Lemma replace_extension (stem : string) :
  Text.contains "." stem = false →
  replace ".html" ".json" (stem +:+ ".html") = stem +:+ ".json".
Proof.
  unfold replace. induction stem as [|c stem IH]; [done|].
  intros [Hc Hstem]%contains_point_cons. rewrite !str_app_cons.
  cbn [replace_from Text.startswith]. rewrite decide_False by done.
  by rewrite IH.
Qed.

End Batch.





(** X17. For a file name made of a stem without a point and the
    extension ".html", as the downloader names its files, the page is
    read from "downloaded_patterns/stem.html" and its record is written to
    "json_patterns_full/stem.json". *)
Theorem out_path_of_html_file (stem : string) :
  Text.contains "." stem = false →
  Text.startswith "/" stem = false →
  endswith ".html" (stem +:+ ".html") = true ∧
  path_join HTML_DIR (stem +:+ ".html") = "downloaded_patterns/" +:+ stem +:+ ".html" ∧
  out_path (stem +:+ ".html") = "json_patterns_full/" +:+ stem +:+ ".json".
Proof.
  intros Hpoint Hslash. split; [apply endswith_app|].
  assert (∀ ext, Text.startswith "/" (stem +:+ String "." ext) = false) as Hext.
  { intros ext. destruct stem as [|c stem]; [done|]. by rewrite str_app_cons. }
  unfold out_path, path_join. rewrite replace_extension by done.
  by rewrite !Hext.
Qed.

Lemma out_path_of_html_file_witness :
  endswith ".html" ("12" +:+ ".html") = true ∧
  path_join HTML_DIR ("12" +:+ ".html") = "downloaded_patterns/" +:+ "12" +:+ ".html" ∧
  out_path ("12" +:+ ".html") = "json_patterns_full/" +:+ "12" +:+ ".json".
Proof. apply (out_path_of_html_file "12"); reflexivity. Defined.

(** ** The optional keys of the record *)

Section OptionalKeys.

Lemma parse_html_before_notes (translate : string → result string) (soup : page) :
  ∃ printed result,
    parse_html translate soup = (printed, Ok result) ∧
    ∀ K, K ∉ ["full_text"; "techniques"; "shape"; "download_links"; "name"] →
         result !! K = before_notes soup !! K.
Proof.
  rewrite parse_html_stages.
  destruct (notes soup) as [block|]; [destruct (translate _)|];
    eexists _, _; (split; [reflexivity|]); intros K HK;
    (rewrite classify_frame
       by (intros Hin; apply HK; by do 1 apply list_elem_of_further));
    rewrite ?lookup_insert_ne; try done;
    intros <-; apply HK; by left.
Qed.

Lemma before_notes_field (soup : page) (script : option (result json))
    (K rule : string) (g : value_div → jvalue) :
  ld_entries soup = ld_entries_of script →
  K ∈ ["craft"; "category"; "needle_size"; "sizes_available"; "languages"] →
  (∀ key val r,
     step_record key val r !! K = if Text.contains rule key then Some (g val) else r !! K) →
  before_notes soup !! K = g <$> last (matching rule (fields soup)).
Proof.
  intros Hld HK Hstep. unfold before_notes. cbn zeta.
  assert (K ≠ "attributes" ∧ K ≠ "suggested_yarn" ∧
          K ∉ ["pattern_page"; "name"; "description"; "designer"]) as (H1 & H2 & H3).
  { repeat (apply elem_of_cons in HK as [-> | HK];
            [split; [done|]; split; [done|]; other_key|]).
    by apply elem_of_nil in HK. }
  assert (store_yarns
            (foldl step_entry (before_fields soup, []) (omap block_entry (fields soup))).2
            (foldl step_entry (before_fields soup, []) (omap block_entry (fields soup))).1
            !! K = g <$> last (matching rule (fields soup))) as Hfields.
  { rewrite store_yarns_frame by done.
    rewrite (fold_last_match K rule g) by done. simpl.
    rewrite (before_fields_lookup soup script K) by done.
    unfold matching. by destruct (last _). }
  destruct (_ <$> tags soup); [done|]. by rewrite lookup_insert_ne.
Qed.

End OptionalKeys.

(** X18. A key of the record whose source is missing from the page is
    absent: craft, category, sizes_available, needle_size and languages
    are present exactly when a field block matches their rule, and then
    hold what the last matching block gives; suggested_yarn is present
    exactly when a block matches "yarn", attributes exactly when the page
    has tags, and pattern_page exactly when it has a report link. *)
Theorem parse_html_optional_keys (translate : string → result string)
    (soup : page) (script : option (result json)) :
  ld_entries soup = ld_entries_of script →
  ∃ printed result,
    parse_html translate soup = (printed, Ok result) ∧
    result !! "craft" =
      (fun val => JStr (value_of val)) <$> last (matching "craft" (fields soup)) ∧
    result !! "category" =
      (fun val => JStr (value_of val)) <$> last (matching "category" (fields soup)) ∧
    result !! "sizes_available" =
      (fun val => JStr (value_of val)) <$> last (matching "sizes available" (fields soup)) ∧
    result !! "needle_size" =
      (fun val => JStr (needle_text (value_of val))) <$> last (matching "needle" (fields soup)) ∧
    result !! "languages" =
      (fun val => JList (spans_of val)) <$> last (matching "languages" (fields soup)) ∧
    (is_Some (result !! "suggested_yarn") ↔ matching "yarn" (fields soup) ≠ []) ∧
    (is_Some (result !! "attributes") ↔ tags soup ≠ []) ∧
    result !! "pattern_page" = JStr <$> page_link soup.
Proof.
  intros Hld.
  destruct (parse_html_before_notes translate soup) as (printed & result & Hparse & Hsame).
  exists printed, result. split; [done|].
  rewrite !Hsame by other_key.
  split; [apply (before_notes_field soup script "craft" "craft"
                   (fun val => JStr (value_of val)) Hld);
          [by repeat constructor | apply step_record_craft]|].
  split; [apply (before_notes_field soup script "category" "category"
                   (fun val => JStr (value_of val)) Hld);
          [by repeat constructor | apply step_record_category]|].
  split; [apply (before_notes_field soup script "sizes_available" "sizes available"
                   (fun val => JStr (value_of val)) Hld);
          [by repeat constructor | apply step_record_sizes]|].
  split; [apply (before_notes_field soup script "needle_size" "needle"
                   (fun val => JStr (needle_text (value_of val))) Hld);
          [by repeat constructor | apply step_record_needle]|].
  split; [apply (before_notes_field soup script "languages" "languages"
                   (fun val => JList (spans_of val)) Hld);
          [by repeat constructor | apply step_record_languages]|].
  unfold before_notes. cbn zeta.
  pose proof (fold_yarns (before_fields soup, []) (omap block_entry (fields soup))) as Hyarns.
  simpl in Hyarns. fold (matching "yarn" (fields soup)) in Hyarns.
  destruct (foldl step_entry _ _) as [r yarns] eqn:Hfold. simpl in *.
  assert (r !! "suggested_yarn" = None ∧ r !! "attributes" = None ∧
          r !! "pattern_page" = JStr <$> page_link soup) as (Hr1 & Hr2 & Hr3).
  { change r with (r, yarns).1. rewrite <- Hfold. rewrite !fold_frame by other_key. simpl.
    rewrite !(before_fields_lookup soup script) by (done || other_key).
    split; [done|]. split; [done|].
    unfold before_fields. rewrite foldl_insert_lookup, Hld.
    assert (filter (fun kv : string * string => kv.1 = "pattern_page")
              (ld_entries_of script) = []) as ->.
    { destruct (ld_entries_shape script) as (n & d & g & _ & _ & _ & Hshape).
      by destruct Hshape as [-> | [-> | [-> | ->]]]. }
    simpl. destruct (page_link soup); [apply lookup_insert_eq | done]. }
  split; [|split].
  - destruct (_ <$> tags soup); rewrite ?lookup_insert_ne by done;
      (destruct yarns as [|y yarns]; simpl;
       [rewrite Hr1; symmetry in Hyarns; apply fmap_nil_inv in Hyarns;
        rewrite Hyarns; split; [by intros [? ?] | done]
       |rewrite lookup_insert_eq; split; [|by eauto];
        intros _ Hnil; by rewrite Hnil in Hyarns]).
  - destruct (tags soup) as [|tag tags']; simpl.
    + rewrite store_yarns_frame by done. rewrite Hr2. split; [by intros [? ?] | done].
    + rewrite lookup_insert_eq. split; [done | by eauto].
  - destruct (_ <$> tags soup); rewrite ?lookup_insert_ne by done;
      by rewrite store_yarns_frame.
Qed.

Lemma parse_html_optional_keys_witness :
  ∃ printed result,
    parse_html (fun t => Ok t)
      {| page_link := None; ld_entries := ld_entries_of None;
         fields := [ {| field_label := Some "Craft";
                        field_value := Some {| value_text := "Knitting"; value_spans := [] |} |} ];
         tags := []; notes := None; anchors := []; title := None |}
    = (printed, Ok result) ∧
    result !! "craft" = Some (JStr "Knitting") ∧
    result !! "category" = None ∧
    ¬ is_Some (result !! "suggested_yarn").
Proof.
  destruct (parse_html_optional_keys (fun t => Ok t)
      {| page_link := None; ld_entries := ld_entries_of None;
         fields := [ {| field_label := Some "Craft";
                        field_value := Some {| value_text := "Knitting"; value_spans := [] |} |} ];
         tags := []; notes := None; anchors := []; title := None |} None eq_refl)
    as (printed & result & Hparse & Hcraft & Hcategory & _ & _ & _ & Hyarn & _).
  exists printed, result. split; [exact Hparse|]. split; [exact Hcraft|].
  split; [exact Hcategory|]. intros Hsome. by apply Hyarn in Hsome.
Defined.

(** ** The table lookup for a US value *)

Section UsLookup.

Lemma needles_get_Some (table : list (string * spec_float)) (k : string) (v : spec_float) :
  NoDup table.*1 → (needles_get k table = Some v ↔ (k, v) ∈ table).
Proof.
  induction table as [|[k' v'] table IH]; simpl; intros Hnd.
  - split; [done | by intros ?%elem_of_nil].
  - apply NoDup_cons in Hnd as [Hk' Hnd]. case_decide as Hk.
    + subst k'. split.
      * intros [= ->]. by left.
      * intros [[= ->] | Hin]%elem_of_cons; [done|].
        exfalso. apply Hk'. apply list_elem_of_fmap. by exists (k, v).
    + rewrite (IH Hnd). split; [by right|].
      intros [[= -> ->] | Hin]%elem_of_cons; done.
Qed.

Lemma needles_get_None (table : list (string * spec_float)) (k : string) :
  needles_get k table = None ↔ k ∉ table.*1.
Proof.
  induction table as [|[k' v'] table IH]; simpl.
  - split; [intros _; apply not_elem_of_nil | done].
  - case_decide as Hk.
    + subst k'. split; [done|]. intros Hnot. exfalso. apply Hnot. by left.
    + rewrite IH, not_elem_of_cons. split; [by intros ? | by intros [_ ?]].
Qed.

Lemma US_NEEDLES_NoDup : NoDup US_NEEDLES.*1.
Proof. rewrite US_NEEDLES_keys. apply (bool_decide_unpack _). by vm_compute. Qed.

Lemma US_NEEDLES_truthy (k : string) (v : spec_float) :
  (k, v) ∈ US_NEEDLES → PyFloat.truthy v = true.
Proof.
  intros Hin. vm_compute in Hin.
  repeat (apply elem_of_cons in Hin as [Hin | Hin]; [by injection Hin as -> ->|]).
  by apply elem_of_nil in Hin.
Qed.

End UsLookup.

(** X19. A US value is looked up by its exact text: when the captured
    text is a key of the table the fragment is "US k (v mm)" with the
    value of that key, and for any other text, such as "08" or "8.", it is
    "US " followed by the text, without a metric size. *)
Theorem us_fragment_exact_key (us : string) :
  (∀ v, (us, v) ∈ US_NEEDLES →
        us_fragment us = "US " +:+ us +:+ " (" +:+ PyFloat.repr v +:+ " mm)") ∧
  (us ∉ US_NEEDLES.*1 → us_fragment us = "US " +:+ us).
Proof.
  split.
  - intros v Hin. unfold us_fragment.
    rewrite (proj2 (needles_get_Some US_NEEDLES us v US_NEEDLES_NoDup) Hin).
    by rewrite (US_NEEDLES_truthy us v Hin).
  - intros Hnot. unfold us_fragment.
    by rewrite (proj2 (needles_get_None US_NEEDLES us) Hnot).
Qed.

Lemma us_fragment_exact_key_witness :
  us_fragment "8." = "US " +:+ "8." ∧
  us_fragment "8" = "US " +:+ "8" +:+ " (" +:+ PyFloat.repr (PyFloat.literal "5.0") +:+ " mm)".
Proof.
  split.
  - apply (us_fragment_exact_key "8."). apply (bool_decide_unpack _). by vm_compute.
  - apply (us_fragment_exact_key "8"). apply (list_elem_of_lookup_2 _ 8). by vm_compute.
Defined.
